(** * Shared WebSocket utilities of the OpenAI Responses providers

    A shallow embedding of [packages/ai/src/providers/openai-websocket.ts]:
    the connection establisher ([connectWebSocket]), the session cache with
    its idle-expiry timers ([acquireWebSocket], [scheduleSessionWebSocketExpiry])
    and the event stream decoder ([parseWebSocket]).

    The TypeScript code is event driven.  Every callback body runs to
    completion before anything else runs, so each callback is embedded as a
    function on an explicit state, and a run of the program is a list of
    scheduler actions folded over that state.  Objects that the source
    shares by reference (cache entries, sockets, timers) live in explicit
    stores and are named by their addresses. *)

From Stdlib Require Import ZArith Strings.String Strings.Ascii Strings.Byte.
From stdpp Require Import gmap strings list fin_maps pretty.

Open Scope Z_scope.
#[local] Set Warnings "-register-all".

(** ** JavaScript values that cross the module boundary *)

Module JS.

(** [new Error(message)]. *)
Record Error := mkError { message : string }.

#[global] Instance Error_eq_dec : EqDecision Error.
Proof. solve_decision. Defined.

(** The [data] property of a message event, by the shapes that
    [decodeWebSocketData] tells apart. *)
Inductive payload :=
| PString (s : string)                       (* typeof data === "string" *)
| PArrayBuffer (bytes : list byte)           (* data instanceof ArrayBuffer *)
| PView (buffer : list byte) (byteOffset byteLength : nat)
                                             (* ArrayBuffer.isView(data) *)
| PBlobLike (content : list byte)            (* object with an arrayBuffer() method;
                                                [content] is what its promise resolves to *)
| POther.                                    (* anything else *)

(** An event object as the listeners inspect it.  A field is [Some] exactly
    when the property is present with the type the code tests for:
    [message] and [reason] as strings, [code] as a number.  The numbers
    represented are the integers that JavaScript prints in plain decimal,
    as close codes are.  [ev_data = None] is an object without a [data]
    property. *)
Record event_obj := mkEvent {
  ev_data : option payload;
  ev_message : option string;
  ev_code : option Z;
  ev_reason : option string }.

(** [unknown]: either something that fails [event && typeof event === "object"]
    or an object. *)
Inductive event :=
| EvNonObject
| EvObj (o : event_obj).

(** Result of [JSON.parse]. *)
Inductive json :=
| JNull
| JBool (b : bool)
| JNum (n : Z)
| JStr (s : string)
| JArr (items : list json)
| JObj (fields : list (string * json)).

(** Whitespace that [String.prototype.trim] strips, restricted to the
    ASCII range in which strings are modelled. *)
Definition is_space (c : ascii) : bool :=
  let n := nat_of_ascii c in
  ((n =? 32) || (n =? 9) || (n =? 10) || (n =? 11) || (n =? 12) || (n =? 13))%nat.

Fixpoint trim_start (s : string) : string :=
  match s with
  | String c s' => if is_space c then trim_start s' else s
  | EmptyString => EmptyString
  end.

Fixpoint trim_end (s : string) : string :=
  match s with
  | String c s' =>
      match trim_end s' with
      | EmptyString => if is_space c then EmptyString else String c EmptyString
      | t => String c t
      end
  | EmptyString => EmptyString
  end.

Definition trim (s : string) : string := trim_end (trim_start s).

(** [s.length > 0] *)
Definition nonempty (s : string) : bool :=
  match s with EmptyString => false | _ => true end.

End JS.
Import JS.

(** ** Error extraction *)

Definition extractWebSocketError (event : JS.event) : Error :=
  match event with
  | EvObj o =>
      match ev_message o with
      | Some message => if nonempty message then mkError message else mkError "WebSocket error"
      | None => mkError "WebSocket error"
      end
  | EvNonObject => mkError "WebSocket error"
  end.

Definition extractWebSocketCloseError (event : JS.event) : Error :=
  match event with
  | EvObj o =>
      let codeText := match ev_code o with Some code => " " +:+ pretty code | None => "" end in
      let reasonText :=
        match ev_reason o with
        | Some reason => if nonempty reason then " " +:+ reason else ""
        | None => ""
        end in
      mkError (trim ("WebSocket closed" +:+ codeText +:+ reasonText))
  | EvNonObject => mkError "WebSocket closed"
  end.

(** ** Connection establisher *)

Module Connect.

(** The four signals raced by [connectWebSocket]. *)
Inductive signal :=
| SigOpen (ev : JS.event)
| SigError (ev : JS.event)
| SigClose (ev : JS.event)
| SigAbort.

Inductive branch := BrOpen | BrError | BrClose | BrAbort.

#[global] Instance branch_eq_dec : EqDecision branch.
Proof. solve_decision. Defined.

Definition branch_of (s : signal) : branch :=
  match s with
  | SigOpen _ => BrOpen
  | SigError _ => BrError
  | SigClose _ => BrClose
  | SigAbort => BrAbort
  end.

(** Settlement of the returned promise. *)
Inductive settlement :=
| Resolved                      (* resolve(socket) *)
| Rejected (e : Error).

(** State of the promise executor's closure: the [settled] flag, which of
    the listeners are currently registered, the promise, and the [close]
    calls made on the socket. *)
Record cstate := mkC {
  settled : bool;
  lst_open : bool;
  lst_error : bool;
  lst_close : bool;
  lst_abort : bool;
  promise : option settlement;
  closes : list (Z * string) }.

(** Environment of one attempt: whether a cancellation signal was passed
    and whether the transport's [close] raises. *)
Record env := mkEnv { has_signal : bool; close_throws : bool }.

(** State right after the executor ran with a constructor that returned:
    the three socket listeners are registered, and the abort listener when
    there is a signal ([signal?.addEventListener]). *)
Definition init (e : env) : cstate :=
  {| settled := false; lst_open := true; lst_error := true; lst_close := true;
     lst_abort := has_signal e; promise := None; closes := [] |}.

(** State when the constructor threw: rejected, nothing registered. *)
Definition init_ctor_threw (err : Error) : cstate :=
  {| settled := false; lst_open := false; lst_error := false; lst_close := false;
     lst_abort := false; promise := Some (Rejected err); closes := [] |}.

Definition cleanup (st : cstate) : cstate :=
  {| settled := settled st; lst_open := false; lst_error := false; lst_close := false;
     lst_abort := false; promise := promise st; closes := closes st |}.

Definition set_settled (st : cstate) : cstate :=
  {| settled := true; lst_open := lst_open st; lst_error := lst_error st;
     lst_close := lst_close st; lst_abort := lst_abort st;
     promise := promise st; closes := closes st |}.

(** [resolve]/[reject]: a promise keeps its first settlement. *)
Definition settle (r : settlement) (st : cstate) : cstate :=
  {| settled := settled st; lst_open := lst_open st; lst_error := lst_error st;
     lst_close := lst_close st; lst_abort := lst_abort st;
     promise := match promise st with Some r0 => Some r0 | None => Some r end;
     closes := closes st |}.

Definition log_close (code : Z) (reason : string) (st : cstate) : cstate :=
  {| settled := settled st; lst_open := lst_open st; lst_error := lst_error st;
     lst_close := lst_close st; lst_abort := lst_abort st;
     promise := promise st; closes := closes st ++ [(code, reason)] |}.

(** The listener bodies.  The second component tells whether the body got
    past its [if (settled) return] guard. *)
Definition onOpen (st : cstate) : cstate * bool :=
  if settled st then (st, false)
  else (settle Resolved (cleanup (set_settled st)), true).

Definition onError (event : JS.event) (st : cstate) : cstate * bool :=
  if settled st then (st, false)
  else (settle (Rejected (extractWebSocketError event)) (cleanup (set_settled st)), true).

Definition onClose (event : JS.event) (st : cstate) : cstate * bool :=
  if settled st then (st, false)
  else (settle (Rejected (extractWebSocketCloseError event)) (cleanup (set_settled st)), true).

(** [socket.close(1000, "aborted")] is a plain call: when the transport
    raises, the [reject] after it is not reached. *)
Definition onAbort (e : env) (st : cstate) : cstate * bool :=
  if settled st then (st, false)
  else
    let st1 := log_close 1000 "aborted" (cleanup (set_settled st)) in
    if close_throws e then (st1, true)
    else (settle (Rejected (mkError "Request was aborted")) st1, true).

Definition registered (s : signal) (st : cstate) : bool :=
  match s with
  | SigOpen _ => lst_open st
  | SigError _ => lst_error st
  | SigClose _ => lst_close st
  | SigAbort => lst_abort st
  end.

Definition handler (e : env) (s : signal) (st : cstate) : cstate * bool :=
  match s with
  | SigOpen _ => onOpen st
  | SigError ev => onError ev st
  | SigClose ev => onClose ev st
  | SigAbort => onAbort e st
  end.

(** An event target calls only the listeners registered at that moment. *)
Definition fire (e : env) (s : signal) (st : cstate) : cstate * bool :=
  if registered s st then handler e s st else (st, false).

(** A run: the signals fire in the given order; the result lists the
    branches whose body executed. *)
Fixpoint run (e : env) (sigs : list signal) (st : cstate) : cstate * list branch :=
  match sigs with
  | [] => (st, [])
  | s :: rest =>
      let '(st1, ran) := fire e s st in
      let '(st2, bs) := run e rest st1 in
      (st2, if ran then branch_of s :: bs else bs)
  end.

Definition no_listeners (st : cstate) : Prop :=
  lst_open st = false /\ lst_error st = false /\ lst_close st = false /\ lst_abort st = false.

(** What the branch of signal [s] does with the promise. *)
Definition verdict (e : env) (s : signal) : option settlement :=
  match s with
  | SigOpen _ => Some Resolved
  | SigError ev => Some (Rejected (extractWebSocketError ev))
  | SigClose ev => Some (Rejected (extractWebSocketCloseError ev))
  | SigAbort => if close_throws e then None
                else Some (Rejected (mkError "Request was aborted"))
  end.

(** Whether a signal can reach the attempt at all: the socket's events
    always can, a cancellation only when a signal was passed to
    [connectWebSocket]. *)
Definition reaches (e : env) (s : signal) : bool :=
  match s with
  | SigAbort => has_signal e
  | _ => true
  end.

(** The first signal of a run that can reach the attempt. *)
Definition first_reaching (e : env) (sigs : list signal) : option signal :=
  head (filter (fun s => reaches e s = true) sigs).

(** The first signal of a run that finds its listener registered. *)
Definition first_delivered (e : env) (sigs : list signal) : option signal :=
  head (filter (fun s => registered s (init e) = true) sigs).

End Connect.

(** ** Session cache, idle expiry and the acquisition protocol *)

Definition SESSION_WEBSOCKET_CACHE_TTL_MS : Z := 5 * 60 * 1000.

Module Pool.

(** Sockets and cache entries are JavaScript objects: they are named here
    by an address, and two names are the same object exactly when the
    addresses are equal.  Timer handles are positive, hence truthy. *)
Definition sock := nat.
Definition loc := nat.
Definition timer := positive.

Record CachedWebSocketConnection := mkEntry {
  socket : sock;
  busy : bool;
  idleTimer : option timer }.

(** A callback scheduled with [setTimeout]: its delay and the two
    variables its closure captures. *)
Record timeout := mkTimeout {
  delay : Z;
  t_sessionId : string;
  t_entry : loc }.

(** The process-wide state the module reads and writes. *)
Record world := mkWorld {
  websocketSessionCache : gmap string loc;   (* the Map, holding entry references *)
  entries : list CachedWebSocketConnection;  (* the entry objects, by address *)
  readyStates : gmap sock Z;                 (* numeric [readyState] of a socket, if it has one *)
  raising : gset sock;                       (* sockets whose [close] throws *)
  close_log : list (sock * Z * string);      (* every [close(code, reason)] call, in order *)
  timers : gmap timer timeout;               (* pending timeouts *)
  next_timer : timer }.                      (* the handle the next [setTimeout] returns *)

Definition set_cache (c : gmap string loc) (w : world) : world :=
  {| websocketSessionCache := c; entries := entries w; readyStates := readyStates w;
     raising := raising w; close_log := close_log w; timers := timers w;
     next_timer := next_timer w |}.

Definition set_entry (l : loc) (e : CachedWebSocketConnection) (w : world) : world :=
  {| websocketSessionCache := websocketSessionCache w; entries := <[l:=e]> (entries w);
     readyStates := readyStates w; raising := raising w; close_log := close_log w;
     timers := timers w; next_timer := next_timer w |}.

(** [getWebSocketReadyState]: [undefined] unless the property is a number. *)
Definition getWebSocketReadyState (s : sock) (w : world) : option Z :=
  readyStates w !! s.

Definition isWebSocketReusable (s : sock) (w : world) : bool :=
  match getWebSocketReadyState s w with
  | None => true
  | Some readyState => readyState =? 1
  end.

(** [socket.close(code, reason)]: the call is observed by the transport;
    the flag tells whether it threw. *)
Definition socket_close (s : sock) (code : Z) (reason : string) (w : world) : world * bool :=
  ({| websocketSessionCache := websocketSessionCache w; entries := entries w;
      readyStates := readyStates w; raising := raising w;
      close_log := close_log w ++ [(s, code, reason)];
      timers := timers w; next_timer := next_timer w |},
   bool_decide (s ∈ raising w)).

(** [try { socket.close(code, reason) } catch {}] *)
Definition closeWebSocketSilently (s : sock) (code : Z) (reason : string) (w : world) : world :=
  fst (socket_close s code reason w).

Definition clearTimeout (t : timer) (w : world) : world :=
  {| websocketSessionCache := websocketSessionCache w; entries := entries w;
     readyStates := readyStates w; raising := raising w; close_log := close_log w;
     timers := delete t (timers w); next_timer := next_timer w |}.

Definition setTimeout (cb : timeout) (w : world) : timer * world :=
  (next_timer w,
   {| websocketSessionCache := websocketSessionCache w; entries := entries w;
      readyStates := readyStates w; raising := raising w; close_log := close_log w;
      timers := <[next_timer w := cb]> (timers w); next_timer := Pos.succ (next_timer w) |}).

(** The references held by closures always point at an object; on an
    address outside the store the operations below do nothing. *)
Definition scheduleSessionWebSocketExpiry (sessionId : string) (entry : loc) (w : world) : world :=
  match entries w !! entry with
  | None => w
  | Some e =>
      let w1 := match idleTimer e with
                | Some t => clearTimeout t w
                | None => w
                end in
      let '(t', w2) := setTimeout (mkTimeout SESSION_WEBSOCKET_CACHE_TTL_MS sessionId entry) w1 in
      set_entry entry (mkEntry (socket e) (busy e) (Some t')) w2
  end.

(** The timeout callback of [scheduleSessionWebSocketExpiry], run when
    timer [t] fires.  A timer fires at most once and only while pending. *)
Definition fire_timer (t : timer) (w : world) : world :=
  match timers w !! t with
  | None => w
  | Some cb =>
      let w1 := clearTimeout t w in
      match entries w1 !! t_entry cb with
      | None => w1
      | Some e =>
          if busy e then w1
          else
            let w2 := closeWebSocketSilently (socket e) 1000 "idle_timeout" w1 in
            set_cache (delete (t_sessionId cb) (websocketSessionCache w2)) w2
      end
  end.

(** The [release] closures that [acquireWebSocket] returns, one per
    return statement, with the variables each one captures. *)
Inductive release_fn :=
| RelSessionless (s : sock)                 (* no session id *)
| RelReused (sessionId : string) (cached : loc)   (* cached entry handed out again *)
| RelOverflow (s : sock)                    (* cached entry was busy *)
| RelFresh (sessionId : string) (entry : loc).    (* new entry inserted *)

Record handle := mkHandle { h_socket : sock; h_release : release_fn }.

(** [!keep] for the destructured, possibly missing, option. *)
Definition not_keep (keep : option bool) : bool :=
  match keep with Some true => false | _ => true end.

(** Calling a release closure; [keep] is what [({ keep } = {})] binds:
    [None] when the options or the property are missing. *)
Definition release (r : release_fn) (keep : option bool) (w : world) : world :=
  match r with
  | RelSessionless s =>
      if bool_decide (keep = Some false) then closeWebSocketSilently s 1000 "done" w
      else closeWebSocketSilently s 1000 "done" w
  | RelReused sessionId cached =>
      match entries w !! cached with
      | None => w
      | Some e =>
          if not_keep keep || negb (isWebSocketReusable (socket e) w) then
            let w1 := closeWebSocketSilently (socket e) 1000 "done" w in
            set_cache (delete sessionId (websocketSessionCache w1)) w1
          else
            let w1 := set_entry cached (mkEntry (socket e) false (idleTimer e)) w in
            scheduleSessionWebSocketExpiry sessionId cached w1
      end
  | RelOverflow s => closeWebSocketSilently s 1000 "done" w
  | RelFresh sessionId entry =>
      match entries w !! entry with
      | None => w
      | Some e =>
          if not_keep keep || negb (isWebSocketReusable (socket e) w) then
            let w1 := closeWebSocketSilently (socket e) 1000 "done" w in
            let w2 := match idleTimer e with
                      | Some t => clearTimeout t w1
                      | None => w1
                      end in
            if bool_decide (websocketSessionCache w2 !! sessionId = Some entry) then
              set_cache (delete sessionId (websocketSessionCache w2)) w2
            else w2
          else
            let w1 := set_entry entry (mkEntry (socket e) false (idleTimer e)) w in
            scheduleSessionWebSocketExpiry sessionId entry w1
      end
  end.

(** [acquireWebSocket] suspends at most once, at [await connectWebSocket].
    It is embedded as the part before the await and the part after it. *)
Inductive connecting :=
| ConnSessionless
| ConnOverflow
| ConnPooled (sessionId : string).

Inductive acquire_step :=
| Acquired (h : handle)            (* returned without connecting *)
| Connecting (k : connecting).     (* suspended in connectWebSocket *)

(** [!sessionId]: [undefined] and the empty string are falsy. *)
Definition no_session (sessionId : option string) : bool :=
  match sessionId with
  | None => true
  | Some s => negb (nonempty s)
  end.

Definition acquire_lookup (sessionId : option string) (w : world) : acquire_step * world :=
  match sessionId with
  | None => (Connecting ConnSessionless, w)
  | Some sid =>
      if no_session sessionId then (Connecting ConnSessionless, w)
      else
        match websocketSessionCache w !! sid with
        | None => (Connecting (ConnPooled sid), w)
        | Some cached =>
            match entries w !! cached with
            | None => (Connecting (ConnPooled sid), w)
            | Some e0 =>
                let w1 := match idleTimer e0 with
                          | Some t => set_entry cached (mkEntry (socket e0) (busy e0) None)
                                        (clearTimeout t w)
                          | None => w
                          end in
                if negb (busy e0) && isWebSocketReusable (socket e0) w1 then
                  (Acquired (mkHandle (socket e0) (RelReused sid cached)),
                   set_entry cached (mkEntry (socket e0) true None) w1)
                else if busy e0 then (Connecting ConnOverflow, w1)
                else if negb (isWebSocketReusable (socket e0) w1) then
                  let w2 := closeWebSocketSilently (socket e0) 1000 "done" w1 in
                  (Connecting (ConnPooled sid),
                   set_cache (delete sid (websocketSessionCache w2)) w2)
                else (Connecting (ConnPooled sid), w1)
            end
        end
  end.

(** The continuation once [connectWebSocket] resolved with socket [s].
    When it rejects instead, [acquireWebSocket] rejects with the same
    error and the world stays as it is. *)
Definition acquire_connected (k : connecting) (s : sock) (w : world) : handle * world :=
  match k with
  | ConnSessionless => (mkHandle s (RelSessionless s), w)
  | ConnOverflow => (mkHandle s (RelOverflow s), w)
  | ConnPooled sid =>
      let entry := length (entries w) in
      let w1 := {| websocketSessionCache := <[sid := entry]> (websocketSessionCache w);
                   entries := entries w ++ [mkEntry s true None];
                   readyStates := readyStates w; raising := raising w;
                   close_log := close_log w; timers := timers w;
                   next_timer := next_timer w |} in
      (mkHandle s (RelFresh sid entry), w1)
  end.


(** The two closures that release a pooled connection. *)
Definition pooled_release (r : release_fn) (sid : string) (l : loc) : Prop :=
  r = RelReused sid l \/ r = RelFresh sid l.

(** *** Sample worlds *)

(** Nothing cached; socket 7 and socket 8 report [readyState === 1]. *)
Definition world0 : world :=
  mkWorld ∅ [] {[ 7%nat := 1; 8%nat := 1 ]} ∅ [] ∅ 1%positive.

(** After [acquireWebSocket(url, headers, "s1")] connected socket 7. *)
Definition world_s1 : world :=
  snd (acquire_connected (ConnPooled "s1") 7%nat (snd (acquire_lookup (Some "s1"%string) world0))).

(** Two overlapping first acquisitions for "s1": both looked the cache up
    before either connected; socket 7 was cached first, then socket 8
    replaced it. *)
Definition world_s1_twice : world :=
  let w1 := snd (acquire_lookup (Some "s1"%string) world0) in
  let w2 := snd (acquire_lookup (Some "s1"%string) w1) in
  let w3 := snd (acquire_connected (ConnPooled "s1") 7%nat w2) in
  snd (acquire_connected (ConnPooled "s1") 8%nat w3).

(** "s1" released with [keep: true]: idle, timer 1 pending. *)
Definition world_s1_idle : world :=
  release (RelFresh "s1" 0%nat) (Some true) world_s1.

End Pool.

(** ** Event stream decoder *)

Module Decoder.

(** How the async generator completes. *)
Inductive completion :=
| Returned                 (* { done: true } *)
| Threw (e : Error).

(** Where the generator of [parseWebSocket] is suspended. *)
Inductive gen_status :=
| GStart                   (* created; the body has not been entered *)
| GYield                   (* at [yield], waiting for the consumer's next() *)
| GAwait                   (* at [await new Promise], the resolver is in [pending] *)
| GWoken                   (* [wake] called the resolver; the continuation is scheduled *)
| GDone (r : completion).

(** Continuations waiting in the microtask queue on behalf of [onMessage]. *)
Inductive microtask :=
| TDecoded (text : option string)   (* the handler, after [await decodeWebSocketData(..)] *)
| TBlobBytes (bytes : list byte).   (* decodeWebSocketData, after [await blobLike.arrayBuffer()] *)

Record dstate := mkD {
  queue : list json;
  pending : bool;                   (* [pending !== null] *)
  done : bool;
  failed : option Error;
  sawCompletion : bool;
  listening : bool;                 (* the listeners of lines 326-329 are registered *)
  status : gen_status;
  aborted : bool;                   (* [signal.aborted] *)
  microtasks : list microtask;      (* first in, first out *)
  blobs : list (list byte) }.       (* arrayBuffer() promises still unresolved *)

Definition init : dstate :=
  {| queue := []; pending := false; done := false; failed := None; sawCompletion := false;
     listening := false; status := GStart; aborted := false; microtasks := []; blobs := [] |}.

Definition set_queue (q : list json) (st : dstate) : dstate :=
  mkD q (pending st) (done st) (failed st) (sawCompletion st) (listening st) (status st)
      (aborted st) (microtasks st) (blobs st).

Definition set_done (st : dstate) : dstate :=
  mkD (queue st) (pending st) true (failed st) (sawCompletion st) (listening st) (status st)
      (aborted st) (microtasks st) (blobs st).

Definition set_failed (e : Error) (st : dstate) : dstate :=
  mkD (queue st) (pending st) (done st) (Some e) (sawCompletion st) (listening st) (status st)
      (aborted st) (microtasks st) (blobs st).

Definition set_sawCompletion (st : dstate) : dstate :=
  mkD (queue st) (pending st) (done st) (failed st) true (listening st) (status st)
      (aborted st) (microtasks st) (blobs st).

Definition set_aborted (st : dstate) : dstate :=
  mkD (queue st) (pending st) (done st) (failed st) (sawCompletion st) (listening st) (status st)
      true (microtasks st) (blobs st).

Definition set_microtasks (ts : list microtask) (st : dstate) : dstate :=
  mkD (queue st) (pending st) (done st) (failed st) (sawCompletion st) (listening st) (status st)
      (aborted st) ts (blobs st).

Definition set_blobs (bs : list (list byte)) (st : dstate) : dstate :=
  mkD (queue st) (pending st) (done st) (failed st) (sawCompletion st) (listening st) (status st)
      (aborted st) (microtasks st) bs.

(** Suspend or resume the generator: [pending] and the suspension point. *)
Definition set_control (p : bool) (s : gen_status) (st : dstate) : dstate :=
  mkD (queue st) p (done st) (failed st) (sawCompletion st) (listening st) s
      (aborted st) (microtasks st) (blobs st).

Definition set_listening (b : bool) (st : dstate) : dstate :=
  mkD (queue st) (pending st) (done st) (failed st) (sawCompletion st) b (status st)
      (aborted st) (microtasks st) (blobs st).

(** [wake]: call the stored resolver, if any. *)
Definition wake (st : dstate) : dstate :=
  if pending st then set_control false GWoken st else st.

Definition is_completion_type (type : string) : bool :=
  String.eqb type "response.completed" || String.eqb type "response.done".

(** Own property lookup; [fields] lists each key once. *)
Fixpoint get_field (k : string) (fields : list (string * json)) : option json :=
  match fields with
  | [] => None
  | (k', v) :: rest => if String.eqb k k' then Some v else get_field k rest
  end.

(** [typeof parsed.type === "string" ? parsed.type : ""]; [None] when the
    property access throws, that is on [null]. *)
Definition type_of (parsed : json) : option string :=
  match parsed with
  | JNull => None
  | JObj fields =>
      match get_field "type" fields with
      | Some (JStr s) => Some s
      | _ => Some ""
      end
  | _ => Some ""
  end.

Definition is_completion (m : json) : bool :=
  match type_of m with
  | Some type => is_completion_type type
  | None => false
  end.

Section Runtime.

(** Built-ins of the JavaScript runtime: [new TextDecoder().decode] and
    [JSON.parse] ([None] when it throws). *)
Variable TextDecoder_decode : list byte -> string.
Variable JSON_parse : string -> option json.

(** [decodeWebSocketData] up to its only suspension point. *)
Inductive decoding :=
| DecReturn (text : option string)      (* returned a string or null *)
| DecAwaitBlob (content : list byte).   (* awaiting blobLike.arrayBuffer() *)

Definition decodeWebSocketData (data : payload) : decoding :=
  match data with
  | PString s => DecReturn (Some s)
  | PArrayBuffer bytes => DecReturn (Some (TextDecoder_decode bytes))
  | PView buffer byteOffset byteLength =>
      DecReturn (Some (TextDecoder_decode (take byteLength (drop byteOffset buffer))))
  | PBlobLike content => DecAwaitBlob content
  | POther => DecReturn None
  end.

(** The message a decoded text contributes to the queue, if any:
    lines 287-290 and the [catch]. *)
Definition accept (text : option string) : option json :=
  match text with
  | None => None
  | Some t =>
      if nonempty t then
        match JSON_parse t with
        | Some parsed => match type_of parsed with Some _ => Some parsed | None => None end
        | None => None
        end
      else None
  end.

(** [onMessage] up to [await decodeWebSocketData(..)]. *)
Definition onMessage (event : JS.event) (st : dstate) : dstate :=
  match event with
  | EvNonObject => st
  | EvObj o =>
      match ev_data o with
      | None => st
      | Some data =>
          match decodeWebSocketData data with
          | DecReturn text => set_microtasks (microtasks st ++ [TDecoded text]) st
          | DecAwaitBlob content => set_blobs (blobs st ++ [content]) st
          end
      end
  end.

(** [onMessage] after the await: lines 287-297. *)
Definition onMessage_decoded (text : option string) (st : dstate) : dstate :=
  match accept text with
  | None => st
  | Some parsed =>
      let st1 := if is_completion parsed then set_done (set_sawCompletion st) else st in
      wake (set_queue (queue st1 ++ [parsed]) st1)
  end.

Definition onError (event : JS.event) (st : dstate) : dstate :=
  wake (set_done (set_failed (extractWebSocketError event) st)).

Definition onClose (event : JS.event) (st : dstate) : dstate :=
  if sawCompletion st then wake (set_done st)
  else
    let st1 := match failed st with
               | None => set_failed (extractWebSocketCloseError event) st
               | Some _ => st
               end in
    wake (set_done st1).

Definition onAbort (st : dstate) : dstate :=
  wake (set_done (set_failed (mkError "Request was aborted") st)).

(** The [finally] block, then completion [r]. *)
Definition finish (r : completion) (st : dstate) : dstate :=
  set_control (pending st) (GDone r) (set_listening false st).

(** Lines 346-351, after the loop. *)
Definition after_loop (st : dstate) : completion :=
  match failed st with
  | Some e => Threw e
  | None =>
      if sawCompletion st then Returned
      else Threw (mkError "WebSocket stream closed before response.completed")
  end.

(** What the generator reports to its consumer. *)
Inductive emit :=
| Yielded (m : json)
| Ended (r : completion).

(** The [while (true)] loop from the top of an iteration to the next
    suspension: a [yield], the [await], or the end of the generator. *)
Definition drain (st : dstate) : dstate * list emit :=
  if aborted st then
    let r := Threw (mkError "Request was aborted") in (finish r st, [Ended r])
  else
    match queue st with
    | m :: q => (set_control (pending st) GYield (set_queue q st), [Yielded m])
    | [] =>
        if done st then let r := after_loop st in (finish r st, [Ended r])
        else (set_control true GAwait st, [])
    end.

(** What the scheduler can do next. *)
Inductive action :=
| AMessage (ev : JS.event)   (* the socket dispatches "message" *)
| AError (ev : JS.event)     (* ... "error" *)
| AClose (ev : JS.event)     (* ... "close" *)
| AAbort                     (* the cancellation signal aborts *)
| ABlob (k : nat)            (* the k-th unresolved arrayBuffer() promise fulfils *)
| ATick                      (* the oldest microtask runs *)
| ARun                       (* the generator runs: next() by the consumer, or the
                                continuation scheduled by [wake] *)
| AReturn.                   (* the consumer leaves its loop: return() *)

Definition step (a : action) (st : dstate) : dstate * list emit :=
  match a with
  | AMessage ev => (if listening st then onMessage ev st else st, [])
  | AError ev => (if listening st then onError ev st else st, [])
  | AClose ev => (if listening st then onClose ev st else st, [])
  | AAbort =>
      if aborted st then (st, [])
      else
        let st1 := set_aborted st in
        (if listening st1 then onAbort st1 else st1, [])
  | ABlob k =>
      match blobs st !! k with
      | Some content =>
          (set_microtasks (microtasks st ++ [TBlobBytes content])
             (set_blobs (delete k (blobs st)) st), [])
      | None => (st, [])
      end
  | ATick =>
      match microtasks st with
      | [] => (st, [])
      | TDecoded text :: rest => (onMessage_decoded text (set_microtasks rest st), [])
      | TBlobBytes bytes :: rest =>
          (set_microtasks (rest ++ [TDecoded (Some (TextDecoder_decode bytes))]) st, [])
      end
  | ARun =>
      match status st with
      | GStart => drain (set_listening true st)
      | GYield | GWoken => drain st
      | GAwait | GDone _ => (st, [])
      end
  | AReturn =>
      match status st with
      | GStart => (set_control (pending st) (GDone Returned) st, [Ended Returned])
      | GYield => (finish Returned st, [Ended Returned])
      | _ => (st, [])
      end
  end.

Fixpoint run (tr : list action) (st : dstate) : dstate * list emit :=
  match tr with
  | [] => (st, [])
  | a :: tr' =>
      let '(st1, out1) := step a st in
      let '(st2, out2) := run tr' st1 in
      (st2, out1 ++ out2)
  end.

Definition yields (out : list emit) : list json :=
  omap (fun e => match e with Yielded m => Some m | Ended _ => None end) out.

(** The message events that reach [onMessage] during a run. *)
Fixpoint heard (tr : list action) (st : dstate) : list JS.event :=
  match tr with
  | [] => []
  | a :: tr' =>
      match a with
      | AMessage ev => if listening st then ev :: heard tr' (fst (step a st))
                       else heard tr' (fst (step a st))
      | _ => heard tr' (fst (step a st))
      end
  end.

(** What one frame contributes when its payload needs no suspension. *)
Definition message_of (event : JS.event) : option json :=
  match event with
  | EvNonObject => None
  | EvObj o =>
      match ev_data o with
      | None => None
      | Some data =>
          match decodeWebSocketData data with
          | DecReturn text => accept text
          | DecAwaitBlob content => accept (Some (TextDecoder_decode content))
          end
      end
  end.

(** The messages that the continuations waiting in the microtask queue
    are going to push, in queue order. *)
Definition in_flight (st : dstate) : list json :=
  omap (fun t => match t with
                 | TDecoded text => accept text
                 | TBlobBytes bytes => accept (Some (TextDecoder_decode bytes))
                 end) (microtasks st).

(** The outputs of a run, and the state it ends in. *)
Definition outputs (tr : list action) (st : dstate) : list emit := snd (run tr st).
Definition final (tr : list action) (st : dstate) : dstate := fst (run tr st).

End Runtime.

(** The consumer calls next() [n] times in a row. *)
Definition pulls (n : nat) : list action := replicate n ARun.

(** Actions that capture no failure by themselves: anything but an error
    event or a cancellation. *)
Definition quiet (a : action) : bool :=
  match a with
  | AError _ | AAbort => false
  | _ => true
  end.

Definition is_abort (a : action) : bool :=
  match a with AAbort => true | _ => false end.

Definition is_decoded (t : microtask) : bool :=
  match t with TDecoded _ => true | TBlobBytes _ => false end.

Definition is_blob_frame (a : action) : bool :=
  match a with
  | AMessage (EvObj o) =>
      match ev_data o with Some (PBlobLike _) => true | _ => false end
  | _ => false
  end.

(** Consistency of the control state: the resolver is stored exactly while
    the generator is at the await, which it enters only with an empty
    queue and [done] unset; the listeners are registered exactly while the
    body is being executed. *)
Record wf (st : dstate) : Prop := mkWf {
  wf_pending : pending st = true <-> status st = GAwait;
  wf_await_queue : status st = GAwait -> queue st = [];
  wf_await_done : status st = GAwait -> done st = false;
  wf_listening : listening st = true <->
                 (status st = GYield \/ status st = GAwait \/ status st = GWoken) }.

(** Nothing is yielded after a completion message. *)
Definition stops_at_completion (out : list emit) : Prop :=
  forall pre m post, yields out = pre ++ m :: post -> is_completion m = true -> post = [].

(** The actions by which a transport failure is captured in state [st]: an
    error event, or a close event before completion with no failure yet. *)
Definition captures_failure (a : action) (st : dstate) : bool :=
  match a with
  | AError _ => true
  | AClose _ => negb (sawCompletion st) && match failed st with Some _ => false | None => true end
  | _ => false
  end.

(** The message events that one action delivers to [onMessage]. *)
Definition heard_now (a : action) (st : dstate) : list JS.event :=
  match a with
  | AMessage ev => if listening st then [ev] else []
  | _ => []
  end.


(** [sawCompletion] is set together with [done]. *)
Definition completion_sets_done (st : dstate) : Prop :=
  sawCompletion st = true -> done st = true.

(** While the listeners are registered, an aborted signal has been seen by
    [onAbort]. *)
Definition abort_recorded (st : dstate) : Prop :=
  listening st = true -> aborted st = true -> is_Some (failed st).

(** *** Sample frames

    A runtime for the examples: bytes decode as ASCII, and [JSON.parse] is
    tabulated on the three frame texts used below. *)

Definition dquote : string := String (ascii_of_nat 34) EmptyString.

(** The text [{"type":"<type>"}]. *)
Definition frame_text (type : string) : string :=
  "{" +:+ dquote +:+ "type" +:+ dquote +:+ ":" +:+ dquote +:+ type +:+ dquote +:+ "}".

Definition typed (type : string) : json := JObj [("type"%string, JStr type)].

Definition sample_decode (bytes : list byte) : string := string_of_list_byte bytes.

Definition sample_parse (text : string) : option json :=
  if String.eqb text (frame_text "response.completed") then Some (typed "response.completed")
  else if String.eqb text (frame_text "response.output_text.delta")
       then Some (typed "response.output_text.delta")
  else if String.eqb text (frame_text "response.created") then Some (typed "response.created")
  else None.

Definition text_frame (type : string) : JS.event :=
  EvObj (mkEvent (Some (PString (frame_text type))) None None None).

Definition blob_frame (type : string) : JS.event :=
  EvObj (mkEvent (Some (PBlobLike (list_byte_of_string (frame_text type)))) None None None).

Definition close_1006 : JS.event :=
  EvObj (mkEvent None None (Some 1006) (Some "abnormal"%string)).

(** The consumer is still busy with the completion message when one more
    frame arrives; it then asks for more. *)
Definition trace_frame_after_completion : list action :=
  [ARun; AMessage (text_frame "response.completed"); ATick; ARun;
   AMessage (text_frame "response.output_text.delta"); ATick; ARun; ARun].

(** A frame is buffered while the consumer is busy with the previous one;
    then the request is cancelled. *)
Definition trace_abort_with_buffer : list action :=
  [ARun; AMessage (text_frame "response.created"); ATick; ARun;
   AMessage (text_frame "response.output_text.delta"); ATick; AAbort].

(** A blob-like frame followed by a text frame; the blob's bytes arrive
    after the text frame has been handled. *)
Definition trace_blob_then_text : list action :=
  [ARun; AMessage (blob_frame "response.created");
   AMessage (text_frame "response.output_text.delta"); ATick;
   ABlob 0; ATick; ATick; ARun; ARun].

(** A delta is buffered, then the stream completes: the state in which the
    generator is woken with two messages to drain. *)
Definition trace_to_completion : list action :=
  [ARun; AMessage (text_frame "response.output_text.delta");
   AMessage (text_frame "response.completed"); ATick; ATick].

(** After the completion marker: one more frame, then the close event. *)
Definition trace_after_completion : list action :=
  [AMessage (text_frame "response.created"); AClose close_1006; ATick].

(** A delta is buffered while the generator waits. *)
Definition trace_one_delta : list action :=
  [ARun; AMessage (text_frame "response.output_text.delta"); ATick].

Definition error_boom : JS.event :=
  EvObj (mkEvent None (Some "boom"%string) None None).



(** The completion frame is decoded, then the transport reports an error. *)
Definition trace_error_after_completion : list action :=
  [ARun; AMessage (text_frame "response.completed"); ATick; AError error_boom].

(** A close before completion, then an error event, then the consumer. *)
Definition trace_error_after_close : list action :=
  [ARun; AClose close_1006; AError error_boom; ARun].

End Decoder.

(** ** Outgoing headers *)

Definition OPENAI_BETA_RESPONSES_WEBSOCKETS : string := "responses_websockets=2026-02-06".

Module Headers.

(** [out[key] = value] on an object literal: an own property is written,
    except for the key [__proto__], whose inherited setter ignores a string. *)
Definition assign (out : gmap string string) (key value : string) : gmap string string :=
  if String.eqb key "__proto__" then out else <[key := value]> out.

(** [headersToRecord]: the pairs of [headers.entries()], assigned in order. *)
Definition headersToRecord (entries : list (string * string)) : gmap string string :=
  foldl (fun out kv => assign out (fst kv) (snd kv)) ∅ entries.

(** Lines 115-116 of [connectWebSocket]: the record passed to the
    constructor. *)
Definition wsHeaders (entries : list (string * string)) : gmap string string :=
  assign (headersToRecord entries) "OpenAI-Beta" OPENAI_BETA_RESPONSES_WEBSOCKETS.

(** [(k, v)] is the last pair with key [k]. *)
Definition last_entry (k v : string) (entries : list (string * string)) : Prop :=
  exists pre post, entries = pre ++ (k, v) :: post /\ k ∉ post.*1.

(** Entries as a [Headers] object lists them, names in lower case, with a
    protocol header supplied by the caller among them. *)
Definition sample_headers : list (string * string) :=
  [("authorization", "Bearer t"); ("openai-beta", "other")]%string.

End Headers.

(** ** Runs of the session cache *)

Module PoolRuns.
Import Pool.

(** What can happen to the cache between two suspension points: one of the
    module's own steps, or the transport changing its [readyState]. *)
Inductive op :=
| OpLookup (sessionId : option string)        (* acquireWebSocket up to its await *)
| OpConnected (k : connecting) (s : sock)     (* ... and after it *)
| OpRelease (r : release_fn) (keep : option bool)
| OpFire (t : timer)
| OpReadyState (s : sock) (v : option Z).

Definition set_readyState (s : sock) (v : option Z) (w : world) : world :=
  {| websocketSessionCache := websocketSessionCache w; entries := entries w;
     readyStates := match v with
                    | Some n => <[s := n]> (readyStates w)
                    | None => delete s (readyStates w)
                    end;
     raising := raising w; close_log := close_log w; timers := timers w;
     next_timer := next_timer w |}.

Definition exec (o : op) (w : world) : world :=
  match o with
  | OpLookup sessionId => snd (acquire_lookup sessionId w)
  | OpConnected k s => snd (acquire_connected k s w)
  | OpRelease r keep => release r keep w
  | OpFire t => fire_timer t w
  | OpReadyState s v => set_readyState s v w
  end.

Definition exec_all (ops : list op) (w : world) : world := foldl (fun w o => exec o w) w ops.

(** Consistency of timers and entries: a pending timeout belongs to an
    entry that exists, is idle and stores that very handle; handles in use
    are older than the next one. *)
Record timers_ok (w : world) : Prop := mkTimersOk {
  pending_idle : forall t cb, timers w !! t = Some cb ->
                   exists e, entries w !! t_entry cb = Some e /\
                             idleTimer e = Some t /\ busy e = false;
  pending_old : forall t cb, timers w !! t = Some cb -> (t < next_timer w)%positive;
  stored_old : forall l e t, entries w !! l = Some e -> idleTimer e = Some t ->
                 (t < next_timer w)%positive }.

(** The session a release closure or a pending connection belongs to. *)
Definition release_session (r : release_fn) : option string :=
  match r with
  | RelReused sid _ | RelFresh sid _ => Some sid
  | RelSessionless _ | RelOverflow _ => None
  end.

(** *** Sample runs *)

(** "s1" is acquired, kept, acquired again, and the cancelled timer is
    fired all the same. *)
Definition sample_ops : list op :=
  [OpLookup (Some "s1"%string); OpConnected (ConnPooled "s1") 7%nat;
   OpRelease (RelFresh "s1" 0%nat) (Some true); OpLookup (Some "s1"%string);
   OpFire 1%positive].

(** The idle connection of "s1" has gone to [readyState === 3]. *)
Definition world_s1_stale : world := set_readyState 7%nat (Some 3) world_s1_idle.

End PoolRuns.

(** ** Runs of the decoder *)

Module DecoderRuns.
Import Decoder.

(** Actions that can make the sequence end: the three listeners that set
    [done] without a message, and the consumer's return(). *)
Definition ends_stream (a : action) : bool :=
  match a with
  | AError _ | AClose _ | AAbort | AReturn => true
  | _ => false
  end.

(** Events that need registered listeners to have any effect, and the
    microtask and promise steps they lead to. *)
Definition transport_only (a : action) : bool :=
  match a with
  | AMessage _ | AError _ | AClose _ | ABlob _ | ATick => true
  | _ => false
  end.

Definition is_return (a : action) : bool :=
  match a with AReturn => true | _ => false end.

Section Runtime.

Variable TextDecoder_decode : list byte -> string.
Variable JSON_parse : string -> option json.

(** The frame carries a completion marker. *)
Definition completes (a : action) : bool :=
  match a with
  | AMessage ev =>
      match message_of TextDecoder_decode JSON_parse ev with
      | Some m => is_completion m
      | None => false
      end
  | _ => false
  end.

(** What a continuation in the microtask queue, or the bytes of an
    unresolved blob, will push. *)
Definition task_message (t : microtask) : option json :=
  match t with
  | TDecoded text => accept JSON_parse text
  | TBlobBytes bytes => accept JSON_parse (Some (TextDecoder_decode bytes))
  end.

Definition no_completion (m : option json) : Prop :=
  match m with Some m => is_completion m = false | None => True end.

(** Nothing has set [done] and nothing in flight is going to. *)
Record streaming (st : dstate) : Prop := mkStreaming {
  str_done : done st = false;
  str_aborted : aborted st = false;
  str_queue : Forall (fun t => no_completion (task_message t)) (microtasks st);
  str_blobs : Forall (fun b => no_completion (task_message (TBlobBytes b))) (blobs st) }.

End Runtime.

(** A cancelled generator is not parked at the await. *)
Definition abort_wakes (st : dstate) : Prop :=
  aborted st = true -> status st <> GAwait.

(** *** Sample runs *)

Definition garbage_frame : JS.event :=
  EvObj (mkEvent (Some (PString "not json")) None None None).

(** Events that fire before the consumer has asked for anything. *)
Definition trace_too_early : list action :=
  [AMessage (text_frame "response.completed"); ATick; AClose close_1006].

(** A delta, then a frame that does not parse; the consumer keeps asking. *)
Definition trace_with_garbage : list action :=
  [ARun; AMessage (text_frame "response.output_text.delta"); ATick; ARun;
   AMessage garbage_frame; ATick; ARun].

(** An error event, then a completion frame all the same. *)
Definition trace_completion_after_error : list action :=
  [AMessage (text_frame "response.completed"); ATick; ARun; ARun].

End DecoderRuns.

(** * Properties *)

(** ** Connection establisher: the settle-once race *)

Section ConnectFacts.
Import Connect.

Variable e : env.

Lemma cleanup_no_listeners st : no_listeners (cleanup st).
Proof. by repeat split. Qed.

(** The guard by itself: a listener called after settlement does nothing,
    registered or not. *)
Lemma settled_guard s st : settled st = true -> handler e s st = (st, false).
Proof. intros Hs. destruct s; simpl; unfold onOpen, onError, onClose, onAbort; by rewrite Hs. Qed.

Lemma fire_unregistered s st : registered s st = false -> fire e s st = (st, false).
Proof. intros H. unfold fire. by rewrite H. Qed.

Lemma run_no_listeners sigs st : no_listeners st -> run e sigs st = (st, []).
Proof.
  intros (Ho & Her & Hc & Ha). induction sigs as [|s sigs IH]; [done|].
  simpl. rewrite fire_unregistered; [by rewrite IH|].
  by destruct s.
Qed.

(** When the constructor threw, the promise is already rejected and no
    signal is listened to. *)
Lemma ctor_failure_ignores_signals err sigs :
  run e sigs (init_ctor_threw err) = (init_ctor_threw err, []).
Proof. by apply run_no_listeners. Qed.

(** Firing a registered signal on the fresh state runs its branch, which
    deregisters everything and settles the promise. *)
Lemma fire_first s :
  registered s (init e) = true ->
  exists st, fire e s (init e) = (st, true) /\ no_listeners st /\ settled st = true /\
             promise st = verdict e s /\
             closes st = match s with SigAbort => [(1000, "aborted"%string)] | _ => [] end.
Proof.
  intros Hreg. unfold fire. rewrite Hreg.
  destruct s; simpl; unfold onOpen, onError, onClose, onAbort; simpl;
    try (eexists; repeat split; reflexivity).
  destruct (close_throws e); eexists; repeat split; reflexivity.
Qed.

Lemma registered_init s : registered s (init e) = reaches e s.
Proof. by destruct s. Qed.

(** A signal that reaches the fresh attempt runs the body of its listener. *)
Lemma fire_is_handler s :
  reaches e s = true -> fire e s (init e) = handler e s (init e).
Proof. intros H. unfold fire. by rewrite registered_init, H. Qed.

(** C8.  The executor registers the three socket listeners, and the abort
    listener when a signal was passed.  Whatever the order in which open,
    error, close and cancellation then fire, the body of exactly one
    listener executes: that of the first signal that can reach the attempt.
    It settles the promise and leaves no listener, socket or abort,
    registered; every later firing leaves the state as that branch left it.
    Nothing executes only when nothing fires but cancellations without a
    signal. *)
Theorem connect_first_signal_wins (sigs : list signal) :
  (forall s, registered s (init e) = reaches e s) /\
  match first_reaching e sigs with
  | Some s =>
      snd (run e sigs (init e)) = [branch_of s] /\
      fst (run e sigs (init e)) = fst (handler e s (init e)) /\
      snd (handler e s (init e)) = true /\
      no_listeners (fst (run e sigs (init e))) /\
      settled (fst (run e sigs (init e))) = true /\
      promise (fst (run e sigs (init e))) = verdict e s
  | None =>
      run e sigs (init e) = (init e, []) /\
      Forall (fun s => s = SigAbort /\ has_signal e = false) sigs
  end.
Proof.
  split; [apply registered_init|].
  unfold first_reaching. induction sigs as [|s sigs IH]; [done|].
  rewrite filter_cons. destruct (decide (reaches e s = true)) as [Hr|Hr].
  - cbn [head run].
    assert (Hreg : registered s (init e) = true) by (by rewrite registered_init).
    destruct (fire_first s Hreg) as (st & Hf & Hno & Hs & Hp & _).
    rewrite <- (fire_is_handler s Hr), Hf.
    rewrite (run_no_listeners sigs st Hno). cbn [fst snd]. by split_and!.
  - apply not_true_is_false in Hr.
    assert (Hreg : registered s (init e) = false) by (by rewrite registered_init).
    assert (Hab : s = SigAbort /\ has_signal e = false) by (by destruct s).
    destruct (head (filter _ sigs)) as [s0|] eqn:Hhd.
    + simpl. rewrite (fire_unregistered s _ Hreg).
      destruct (run e sigs (init e)) as [st2 bs] eqn:Hrun. simpl in *. exact IH.
    + simpl. rewrite (fire_unregistered s _ Hreg). destruct IH as [-> Hall].
      split; [done | by constructor].
Qed.

End ConnectFacts.

(** ** Session cache and acquisition protocol *)

Section PoolFacts.
Import Pool.

Lemma close_silently_log s code reason w :
  close_log (closeWebSocketSilently s code reason w) = close_log w ++ [(s, code, reason)].
Proof. done. Qed.

Lemma not_keep_default : not_keep None = not_keep (Some false).
Proof. done. Qed.





Lemma world_s1_entry : entries world_s1 !! 0%nat = Some (mkEntry 7%nat true None).
Proof. reflexivity. Qed.



(** C5.  When the entry cached for a session is busy, an acquisition for
    that session goes straight to a new connection: the lookup returns
    nothing reusable, leaves the cache, the transport and the entry's [busy]
    flag alone, the connection it then gets is handed out as it is and is
    not stored anywhere, and its release closes it whatever the hint. *)
Theorem busy_session_gets_unpooled_socket sid l e w :
  nonempty sid = true ->
  websocketSessionCache w !! sid = Some l ->
  entries w !! l = Some e ->
  busy e = true ->
  exists w1,
    acquire_lookup (Some sid) w = (Connecting ConnOverflow, w1) /\
    websocketSessionCache w1 = websocketSessionCache w /\
    close_log w1 = close_log w /\
    entries w1 !! l = Some (mkEntry (socket e) true None) /\
    (idleTimer e = None -> w1 = w) /\
    forall s w2,
      acquire_connected ConnOverflow s w2 = (mkHandle s (RelOverflow s), w2) /\
      forall keep w3,
        release (RelOverflow s) keep w3 = closeWebSocketSilently s 1000 "done" w3 /\
        close_log (release (RelOverflow s) keep w3) = close_log w3 ++ [(s, 1000, "done"%string)] /\
        websocketSessionCache (release (RelOverflow s) keep w3) = websocketSessionCache w3 /\
        entries (release (RelOverflow s) keep w3) = entries w3 /\
        timers (release (RelOverflow s) keep w3) = timers w3.
Proof.
  intros Hsid Hc He Hb. unfold acquire_lookup, no_session. rewrite Hsid, Hc, He. simpl.
  assert (Hlt : (l < length (entries w))%nat) by (by eapply lookup_lt_Some).
  rewrite Hb. simpl. eexists. split; [reflexivity|].
  destruct e as [s0 b0 [t|]]; simpl in *; subst b0.
  - split_and!; try done. by apply list_lookup_insert_eq.
  - split_and!; try done.
Qed.

Lemma busy_session_gets_unpooled_socket_witness :
  exists w1,
    acquire_lookup (Some "s1"%string) world_s1 = (Connecting ConnOverflow, w1) /\
    websocketSessionCache w1 = websocketSessionCache world_s1 /\
    close_log w1 = close_log world_s1 /\
    entries w1 !! 0%nat = Some (mkEntry 7%nat true None) /\
    (@None timer = None -> w1 = world_s1) /\
    forall s w2,
      acquire_connected ConnOverflow s w2 = (mkHandle s (RelOverflow s), w2) /\
      forall keep w3,
        release (RelOverflow s) keep w3 = closeWebSocketSilently s 1000 "done" w3 /\
        close_log (release (RelOverflow s) keep w3) = close_log w3 ++ [(s, 1000, "done"%string)] /\
        websocketSessionCache (release (RelOverflow s) keep w3) = websocketSessionCache w3 /\
        entries (release (RelOverflow s) keep w3) = entries w3 /\
        timers (release (RelOverflow s) keep w3) = timers w3.
Proof.
  apply (busy_session_gets_unpooled_socket "s1" 0%nat (mkEntry 7%nat true None) world_s1);
    reflexivity.
Defined.

(** Cancelling a timer: afterwards its firing changes nothing. *)
Lemma fire_cancelled t w : timers w !! t = None -> fire_timer t w = w.
Proof. intros H. unfold fire_timer. by rewrite H. Qed.

(** C7.  (1) A timer that fires while its entry is idle closes the entry's
    transport with (1000, "idle_timeout"), without raising even when the
    transport's close does, and removes the session from the cache.
    (2) Looking a session up in [acquireWebSocket] cancels the timer stored
    on its entry and clears the field, so that timer can no longer close
    anything.  (3) Arming an entry that already carries a timer cancels that
    one and leaves exactly the new one, with the five-minute delay. *)
Theorem idle_timer_lifecycle sid l e t w :
  entries w !! l = Some e ->
  (timers w !! t = Some (mkTimeout SESSION_WEBSOCKET_CACHE_TTL_MS sid l) ->
   busy e = false ->
   close_log (fire_timer t w) = close_log w ++ [(socket e, 1000, "idle_timeout"%string)] /\
   websocketSessionCache (fire_timer t w) !! sid = None /\
   timers (fire_timer t w) !! t = None) /\
  (nonempty sid = true ->
   websocketSessionCache w !! sid = Some l ->
   idleTimer e = Some t ->
   let w1 := snd (acquire_lookup (Some sid) w) in
   timers w1 !! t = None /\
   fire_timer t w1 = w1 /\
   (websocketSessionCache w1 !! sid = Some l ->
    exists e1, entries w1 !! l = Some e1 /\ idleTimer e1 = None) /\
   (busy e = false -> isWebSocketReusable (socket e) w = true ->
    fst (acquire_lookup (Some sid) w) = Acquired (mkHandle (socket e) (RelReused sid l)) /\
    close_log w1 = close_log w /\
    websocketSessionCache w1 = websocketSessionCache w /\
    entries w1 !! l = Some (mkEntry (socket e) true None))) /\
  (idleTimer e = Some t ->
   (t < next_timer w)%positive ->
   let w2 := scheduleSessionWebSocketExpiry sid l w in
   timers w2 !! t = None /\
   timers w2 !! next_timer w = Some (mkTimeout SESSION_WEBSOCKET_CACHE_TTL_MS sid l) /\
   entries w2 !! l = Some (mkEntry (socket e) (busy e) (Some (next_timer w))) /\
   timers w2 = <[next_timer w := mkTimeout SESSION_WEBSOCKET_CACHE_TTL_MS sid l]> (delete t (timers w))).
Proof.
  intros He.
  assert (Hlt : (l < length (entries w))%nat) by (by eapply lookup_lt_Some).
  split_and!.
  - intros Ht Hb. unfold fire_timer. rewrite Ht. simpl. rewrite He, Hb. simpl.
    split_and!; [done | apply lookup_delete_eq | apply lookup_delete_eq].
  - intros Hsid Hc Hi w1. subst w1. unfold acquire_lookup, no_session.
    rewrite Hsid, Hc, He, Hi. simpl.
    assert (Hreuse : isWebSocketReusable (socket e)
              (set_entry l (mkEntry (socket e) (busy e) None) (clearTimeout t w))
            = isWebSocketReusable (socket e) w) by done.
    rewrite Hreuse.
    destruct (busy e) eqn:Hb; simpl.
    + split_and!; try done.
      * apply lookup_delete_eq.
      * apply fire_cancelled. apply lookup_delete_eq.
      * intros _. exists (mkEntry (socket e) true None).
        split; [by apply list_lookup_insert_eq | done].
    + destruct (isWebSocketReusable (socket e) w) eqn:Hr; simpl.
      * split_and!; try done.
        -- apply lookup_delete_eq.
        -- apply fire_cancelled. apply lookup_delete_eq.
        -- intros _. exists (mkEntry (socket e) true None). split; [|reflexivity].
           rewrite list_insert_insert_eq. by apply list_lookup_insert_eq.
        -- intros _ _. split_and!; try done.
           rewrite list_insert_insert_eq. by apply list_lookup_insert_eq.
      * split_and!; try done.
        -- apply lookup_delete_eq.
        -- apply fire_cancelled. apply lookup_delete_eq.
        -- intros Hc'. by rewrite lookup_delete_eq in Hc'.
  - intros Hi Hfresh w2. subst w2. unfold scheduleSessionWebSocketExpiry.
    rewrite He, Hi. simpl.
    split_and!; try done.
    + rewrite lookup_insert_ne by lia. apply lookup_delete_eq.
    + apply lookup_insert_eq.
    + by apply list_lookup_insert_eq.
Qed.

Lemma idle_timer_lifecycle_witness :
  (close_log (fire_timer 1%positive world_s1_idle) =
     close_log world_s1_idle ++ [(7%nat, 1000, "idle_timeout"%string)] /\
   websocketSessionCache (fire_timer 1%positive world_s1_idle) !! "s1"%string = None) /\
  (timers (snd (acquire_lookup (Some "s1"%string) world_s1_idle)) !! 1%positive = None /\
   fst (acquire_lookup (Some "s1"%string) world_s1_idle) =
     Acquired (mkHandle 7%nat (RelReused "s1" 0%nat)) /\
   close_log (snd (acquire_lookup (Some "s1"%string) world_s1_idle)) = close_log world_s1_idle) /\
  (timers (scheduleSessionWebSocketExpiry "s1" 0%nat world_s1_idle) !! 1%positive = None /\
   timers (scheduleSessionWebSocketExpiry "s1" 0%nat world_s1_idle) !! 2%positive =
     Some (mkTimeout SESSION_WEBSOCKET_CACHE_TTL_MS "s1" 0%nat)).
Proof.
  destruct (idle_timer_lifecycle "s1" 0%nat (mkEntry 7%nat false (Some 1%positive))
              1%positive world_s1_idle eq_refl) as (Hfire & Hacq & Harm).
  split_and!.
  - apply Hfire; reflexivity.
  - apply Hfire; reflexivity.
  - apply Hacq; reflexivity.
  - apply Hacq; reflexivity.
  - apply Hacq; reflexivity.
  - apply Harm; reflexivity.
  - apply Harm; reflexivity.
Defined.

(** C10.  The release closure of a freshly inserted entry removes the
    session from the cache only when the cache still holds that very entry.
    Whatever the hint, a different entry cached under the same session id
    and the entries of other sessions stay where they are. *)
Theorem fresh_release_guards_eviction sid l e keep w :
  entries w !! l = Some e ->
  (not_keep keep || negb (isWebSocketReusable (socket e) w) = true ->
   websocketSessionCache (release (RelFresh sid l) keep w) =
     if bool_decide (websocketSessionCache w !! sid = Some l)
     then delete sid (websocketSessionCache w)
     else websocketSessionCache w) /\
  (forall l', l' <> l -> websocketSessionCache w !! sid = Some l' ->
     websocketSessionCache (release (RelFresh sid l) keep w) !! sid = Some l') /\
  (forall sid', sid' <> sid ->
     websocketSessionCache (release (RelFresh sid l) keep w) !! sid' =
     websocketSessionCache w !! sid').
Proof.
  intros He.
  assert (Hlt : (l < length (entries w))%nat) by (by eapply lookup_lt_Some).
  assert (Hkeep : not_keep keep || negb (isWebSocketReusable (socket e) w) = false ->
                  websocketSessionCache (release (RelFresh sid l) keep w) = websocketSessionCache w).
  { intros Hk. simpl. rewrite He, Hk.
    unfold scheduleSessionWebSocketExpiry. simpl.
    rewrite list_lookup_insert_eq by done. simpl. by destruct (idleTimer e). }
  assert (Hclose : not_keep keep || negb (isWebSocketReusable (socket e) w) = true ->
                   websocketSessionCache (release (RelFresh sid l) keep w) =
                     if bool_decide (websocketSessionCache w !! sid = Some l)
                     then delete sid (websocketSessionCache w)
                     else websocketSessionCache w).
  { intros Hk. simpl. rewrite He, Hk. by destruct (idleTimer e); simpl; case_bool_decide. }
  split_and!.
  - exact Hclose.
  - intros l' Hne Hc.
    destruct (not_keep keep || negb (isWebSocketReusable (socket e) w)) eqn:Hk.
    + rewrite Hclose by done. rewrite bool_decide_eq_false_2; [done|]. congruence.
    + by rewrite Hkeep.
  - intros sid' Hne.
    destruct (not_keep keep || negb (isWebSocketReusable (socket e) w)) eqn:Hk.
    + rewrite Hclose by done. case_bool_decide; [|done]. by rewrite lookup_delete_ne.
    + by rewrite Hkeep.
Qed.

Lemma fresh_release_guards_eviction_witness :
  websocketSessionCache world_s1_twice !! "s1"%string = Some 1%nat /\
  websocketSessionCache (release (RelFresh "s1" 0%nat) (Some false) world_s1_twice) =
    websocketSessionCache world_s1_twice /\
  websocketSessionCache (release (RelFresh "s1" 0%nat) None world_s1_twice) !! "s1"%string =
    Some 1%nat /\
  websocketSessionCache (release (RelFresh "s1" 1%nat) (Some false) world_s1_twice) !! "s1"%string =
    None.
Proof.
  destruct (fresh_release_guards_eviction "s1" 0%nat (mkEntry 7%nat true None) (Some false)
              world_s1_twice eq_refl) as (Hstale & _ & _).
  destruct (fresh_release_guards_eviction "s1" 0%nat (mkEntry 7%nat true None) None
              world_s1_twice eq_refl) as (_ & Hnewer & _).
  destruct (fresh_release_guards_eviction "s1" 1%nat (mkEntry 8%nat true None) (Some false)
              world_s1_twice eq_refl) as (Hown & _ & _).
  split_and!.
  - reflexivity.
  - rewrite Hstale; reflexivity.
  - apply Hnewer; [discriminate | reflexivity].
  - rewrite Hown by reflexivity. reflexivity.
Defined.

End PoolFacts.

(** ** Event stream decoder *)

Section DecoderFacts.
Import Decoder.

Variable dec : list byte -> string.
Variable parse : string -> option json.


(** Case analysis on every test that a definition of the decoder makes. *)
Ltac split_tests :=
  repeat match goal with
         | |- context [if ?b then _ else _] => destruct b eqn:?
         | |- context [match ?x with _ => _ end] => destruct x eqn:?
         end.

Lemma run_cons a tr st :
  run dec parse (a :: tr) st = ((run dec parse tr (step dec parse a st).1).1, (step dec parse a st).2 ++ (run dec parse tr (step dec parse a st).1).2).
Proof.
  cbn [run]. destruct (step dec parse a st) as [st1 o1]. cbn [fst snd].
  by destruct (run dec parse tr st1).
Qed.

Lemma outputs_cons a tr st :
  outputs dec parse (a :: tr) st = (step dec parse a st).2 ++ outputs dec parse tr (step dec parse a st).1.
Proof. unfold outputs. by rewrite run_cons. Qed.

Lemma final_cons a tr st : final dec parse (a :: tr) st = final dec parse tr (step dec parse a st).1.
Proof. unfold final. by rewrite run_cons. Qed.

Lemma outputs_app tr1 tr2 st :
  outputs dec parse (tr1 ++ tr2) st = outputs dec parse tr1 st ++ outputs dec parse tr2 (final dec parse tr1 st).
Proof.
  revert st. induction tr1 as [|a tr1 IH]; intros st; [done|].
  rewrite <- app_comm_cons, !outputs_cons, final_cons, IH. by rewrite app_assoc.
Qed.

Lemma final_app tr1 tr2 st : final dec parse (tr1 ++ tr2) st = final dec parse tr2 (final dec parse tr1 st).
Proof.
  revert st. induction tr1 as [|a tr1 IH]; intros st; [done|].
  by rewrite <- app_comm_cons, !final_cons, IH.
Qed.

(** *** Control-state invariant *)

Lemma wf_init : wf init.
Proof. split; simpl; try done; intuition congruence. Qed.

(** [wake] leaves the await: whatever a handler did to the queue and to
    [done] before calling it, the control state is consistent afterwards. *)
Lemma wf_wake st :
  (pending st = true <-> status st = GAwait) ->
  (listening st = true <-> (status st = GYield \/ status st = GAwait \/ status st = GWoken)) ->
  wf (wake st).
Proof.
  intros Hp Hl. unfold wake. destruct (pending st) eqn:Ep.
  - split; simpl; try done. split; [auto|]. intros _. apply Hl. tauto.
  - split; [by rewrite Ep | | | exact Hl]; intros Hs; apply Hp in Hs; congruence.
Qed.

Lemma wf_handler f st :
  wf st ->
  pending (f st) = pending st -> status (f st) = status st -> listening (f st) = listening st ->
  wf (wake (f st)).
Proof.
  intros [H1 H2 H3 H4] Hp Hs Hl. apply wf_wake; rewrite ?Hp, ?Hs, ?Hl; done.
Qed.

Lemma wf_onMessage ev st : wf st -> wf (onMessage dec ev st).
Proof.
  intros [H1 H2 H3 H4]. unfold onMessage. split_tests; by split.
Qed.

Lemma wf_onMessage_decoded text st : wf st -> wf (onMessage_decoded parse text st).
Proof.
  intros Hwf. unfold onMessage_decoded. destruct (accept parse text) as [m|]; [|done].
  destruct (is_completion m).
  - by apply (wf_handler (fun s => set_queue (queue (set_done (set_sawCompletion s)) ++ [m])
                                     (set_done (set_sawCompletion s)))).
  - by apply (wf_handler (fun s => set_queue (queue s ++ [m]) s)).
Qed.

Lemma wf_onError ev st : wf st -> wf (onError ev st).
Proof.
  intros Hwf. unfold onError.
  by apply (wf_handler (fun s => set_done (set_failed (extractWebSocketError ev) s))).
Qed.

Lemma wf_onClose ev st : wf st -> wf (onClose ev st).
Proof.
  intros Hwf. unfold onClose. destruct (sawCompletion st).
  - by apply (wf_handler set_done).
  - destruct (failed st).
    + by apply (wf_handler set_done).
    + by apply (wf_handler (fun s => set_done (set_failed (extractWebSocketCloseError ev) s))).
Qed.

Lemma wf_onAbort st : wf st -> wf (onAbort st).
Proof.
  intros Hwf. unfold onAbort.
  by apply (wf_handler (fun s => set_done (set_failed (mkError "Request was aborted") s))).
Qed.

Lemma wf_drain st :
  (pending st = true <-> status st = GAwait) ->
  listening st = true -> status st <> GAwait ->
  wf (drain st).1.
Proof.
  intros Hp Hl Hs. unfold drain.
  assert (Ep : pending st = false).
  { destruct (pending st); [|done]. by destruct Hs; apply Hp. }
  split_tests; simpl; split; simpl; rewrite ?Ep, ?Hl; try done; try tauto;
    try (split; [done | intros [?|[?|?]]; done]); try (split; [tauto | done]).
Qed.

Lemma wf_step a st : wf st -> wf (step dec parse a st).1.
Proof.
  intros Hwf. destruct a; simpl.
  - destruct (listening st); [by apply wf_onMessage | done].
  - destruct (listening st); [by apply wf_onError | done].
  - destruct (listening st); [by apply wf_onClose | done].
  - destruct (aborted st); [done|]. simpl.
    destruct (listening st) eqn:El.
    + apply wf_onAbort. by destruct Hwf.
    + by destruct Hwf.
  - destruct (blobs st !! k); [|done]. by destruct Hwf.
  - destruct (microtasks st) as [|[text|bytes] rest]; [done | |].
    + apply wf_onMessage_decoded. by destruct Hwf.
    + by destruct Hwf.
  - pose proof Hwf as [H1 H2 H3 H4]. destruct (status st) eqn:Es.
    + apply wf_drain; simpl; rewrite ?Es; try done.
    + apply wf_drain; rewrite ?Es; try done. apply H4. auto.
    + exact Hwf.
    + apply wf_drain; rewrite ?Es; try done. apply H4. auto.
    + exact Hwf.
  - pose proof Hwf as [H1 H2 H3 H4]. destruct (status st) eqn:Es; try exact Hwf.
    + split; simpl; try done.
      * rewrite H1. split; done.
      * rewrite H4. split; intros [?|[?|?]]; done.
    + split; simpl; try done.
      * rewrite H1. split; done.
      * split; [done | intros [?|[?|?]]; done].
Qed.

Lemma wf_final tr st : wf st -> wf (final dec parse tr st).
Proof.
  revert st. induction tr as [|a tr IH]; intros st Hwf; [done|].
  rewrite final_cons. apply IH. by apply wf_step.
Qed.

(** *** What running the generator leaves alone *)

Lemma drain_keeps st :
  done (drain st).1 = done st /\ failed (drain st).1 = failed st /\
  sawCompletion (drain st).1 = sawCompletion st /\ aborted (drain st).1 = aborted st /\
  microtasks (drain st).1 = microtasks st /\ blobs (drain st).1 = blobs st.
Proof. unfold drain. split_tests; simpl; done. Qed.

Lemma consumer_step_keeps a st :
  a = ARun \/ a = AReturn ->
  done (step dec parse a st).1 = done st /\ failed (step dec parse a st).1 = failed st /\
  sawCompletion (step dec parse a st).1 = sawCompletion st /\
  aborted (step dec parse a st).1 = aborted st /\
  microtasks (step dec parse a st).1 = microtasks st /\ blobs (step dec parse a st).1 = blobs st.
Proof.
  intros [-> | ->]; simpl.
  - destruct (status st); try done; try apply drain_keeps.
    destruct (drain_keeps (set_listening true st)) as (? & ? & ? & ? & ? & ?). done.
  - destruct (status st); simpl; done.
Qed.

(** *** After the end *)

(** Once the generator has completed it reports nothing more, whatever
    happens; continuations still in flight only touch the dead queue. *)
Lemma step_after_end a r st :
  wf st -> status st = GDone r ->
  (step dec parse a st).2 = [] /\ status (step dec parse a st).1 = GDone r.
Proof.
  intros Hwf Hs. pose proof Hwf as [H1 H2 H3 H4].
  assert (El : listening st = false).
  { destruct (listening st); [|done]. destruct H4 as [H4 _].
    destruct H4 as [?|[?|?]]; congruence. }
  assert (Ep : pending st = false).
  { destruct (pending st); [|done]. destruct H1 as [H1 _]. rewrite H1 in Hs; done. }
  destruct a; simpl; rewrite ?El, ?Hs; try done.
  - destruct (aborted st); simpl; rewrite ?El; done.
  - by destruct (blobs st !! k).
  - destruct (microtasks st) as [|[text|bytes] rest]; try done.
    unfold onMessage_decoded. destruct (accept parse text) as [m|]; [|done].
    unfold wake. by destruct (is_completion m); simpl; rewrite Ep.
Qed.

Lemma outputs_after_end tr r st :
  wf st -> status st = GDone r -> outputs dec parse tr st = [].
Proof.
  revert st. induction tr as [|a tr IH]; intros st Hwf Hs; [done|].
  rewrite outputs_cons. destruct (step_after_end a r st Hwf Hs) as [-> Hs'].
  apply IH; [by apply wf_step | done].
Qed.

(** *** Why the loop can end *)



(** *** How the generator ends *)

Lemma drain_end st r :
  aborted st = false -> Ended r ∈ (drain st).2 ->
  r = after_loop st /\ queue st = [] /\ done st = true.
Proof.
  intros Ha. unfold drain. rewrite Ha.
  destruct (queue st) as [|m q]; simpl.
  - destruct (done st); simpl; [|by intros ?%elem_of_nil].
    intros H%list_elem_of_singleton. by injection H as ->.
  - intros H%list_elem_of_singleton. done.
Qed.

Lemma run_end st r :
  aborted st = false -> Ended r ∈ (step dec parse ARun st).2 ->
  r = after_loop st /\ queue st = [].
Proof.
  intros Ha. simpl. destruct (status st); simpl; try (by intros ?%elem_of_nil).
  - intros (-> & ? & _)%drain_end; done.
  - intros (-> & ? & _)%drain_end; done.
  - intros (-> & ? & _)%drain_end; done.
Qed.

Lemma return_end st r : Ended r ∈ (step dec parse AReturn st).2 -> r = Returned.
Proof.
  simpl. destruct (status st); simpl; try (by intros ?%elem_of_nil);
    intros H%list_elem_of_singleton; by injection H as ->.
Qed.

Lemma event_silent a st :
  a <> ARun -> a <> AReturn -> (step dec parse a st).2 = [].
Proof.
  intros H1 H2. destruct a; simpl; try done.
  - by destruct (aborted st).
  - by destruct (blobs st !! k).
  - by destruct (microtasks st) as [|[?|?] ?].
Qed.

(** Quiet actions keep a captured failure, and keep a clean completed
    state clean. *)
Lemma quiet_keeps_failed a st :
  quiet a = true -> aborted st = false ->
  aborted (step dec parse a st).1 = false /\
  (sawCompletion st = true -> sawCompletion (step dec parse a st).1 = true) /\
  (failed st = None -> sawCompletion st = true -> failed (step dec parse a st).1 = None) /\
  (forall e, failed st = Some e -> failed (step dec parse a st).1 = Some e).
Proof.
  intros Hq Ha.
  destruct a; try done;
    [simpl | simpl | simpl | simpl
     | destruct (consumer_step_keeps ARun st) as (_ & -> & -> & -> & _); auto
     | destruct (consumer_step_keeps AReturn st) as (_ & -> & -> & -> & _); auto].
  - unfold onMessage. split_tests; simpl; split_and!; eauto.
  - destruct (listening st); [|split_and!; eauto].
    unfold onClose, wake. split_and!.
    + split_tests; simpl; done.
    + intros Hc. rewrite Hc. split_tests; simpl; done.
    + intros Hf Hc. rewrite Hc. split_tests; simpl; done.
    + intros e Hf. rewrite Hf. split_tests; simpl; done.
  - destruct (blobs st !! k); simpl; split_and!; eauto.
  - destruct (microtasks st) as [|[text|bytes] rest]; simpl; try (split_and!; eauto; done).
    unfold onMessage_decoded, wake. split_and!.
    + split_tests; simpl; done.
    + intros Hc. split_tests; simpl; done.
    + intros Hf Hc. split_tests; simpl; done.
    + intros e Hf. split_tests; simpl; done.
Qed.

Lemma quiet_run_keeps_clean tr st :
  Forall (fun a => quiet a = true) tr ->
  aborted st = false -> failed st = None -> sawCompletion st = true ->
  aborted (final dec parse tr st) = false /\ failed (final dec parse tr st) = None /\
  sawCompletion (final dec parse tr st) = true.
Proof.
  intros Hq. revert st. induction Hq as [|a tr Hqa Hq IH]; intros st Ha Hf Hc; [done|].
  rewrite final_cons. destruct (quiet_keeps_failed a st Hqa Ha) as (Ha' & Hc' & Hf' & _).
  apply IH; auto.
Qed.

(** From a state in which completion was seen and nothing failed, no
    sequence of quiet actions makes the generator end other than normally. *)
Lemma clean_end_only tr st r :
  Forall (fun a => quiet a = true) tr ->
  aborted st = false -> failed st = None -> sawCompletion st = true ->
  Ended r ∈ outputs dec parse tr st -> r = Returned.
Proof.
  intros Hq. revert st. induction Hq as [|a tr Hqa Hq IH]; intros st Ha Hf Hc.
  - by intros ?%elem_of_nil.
  - rewrite outputs_cons.
    destruct (quiet_keeps_failed a st Hqa Ha) as (Ha' & Hc' & Hf' & _).
    intros [Hin|Hin]%elem_of_app.
    + destruct a; try (rewrite event_silent in Hin by done; by apply elem_of_nil in Hin).
      * apply run_end in Hin as [-> _]; [|done]. unfold after_loop. by rewrite Hf, Hc.
      * by apply return_end in Hin.
    + apply (IH (step dec parse a st).1); auto.
Qed.

(** From a state with failure [e] captured, quiet actions can only make the
    generator throw [e]. *)
Lemma failure_end_only tr st e e' :
  Forall (fun a => quiet a = true) tr ->
  aborted st = false -> failed st = Some e ->
  Ended (Threw e') ∈ outputs dec parse tr st -> e' = e.
Proof.
  intros Hq. revert st. induction Hq as [|a tr Hqa Hq IH]; intros st Ha Hf.
  - by intros ?%elem_of_nil.
  - rewrite outputs_cons.
    destruct (quiet_keeps_failed a st Hqa Ha) as (Ha' & _ & _ & Hf').
    intros [Hin|Hin]%elem_of_app.
    + destruct a; try (rewrite event_silent in Hin by done; by apply elem_of_nil in Hin).
      * apply run_end in Hin as [Heq _]; [|done]. unfold after_loop in Heq.
        rewrite Hf in Heq. congruence.
      * by apply return_end in Hin.
    + apply (IH (step dec parse a st).1); auto.
Qed.

(** *** Draining *)

(** With [done] set and no cancellation, a consumer that keeps asking gets
    the buffered messages in order and then the outcome of lines 346-351. *)
Lemma pulls_drain q st :
  queue st = q -> aborted st = false -> done st = true ->
  status st = GYield \/ status st = GWoken ->
  outputs dec parse (pulls (S (length q))) st = map Yielded q ++ [Ended (after_loop st)] /\
  status (final dec parse (pulls (S (length q))) st) = GDone (after_loop st).
Proof.
  revert st. induction q as [|m q IH]; intros st Hq Ha Hd Hs.
  - unfold pulls, outputs, final. simpl.
    assert (Hdr : drain st = (finish (after_loop st) st, [Ended (after_loop st)])).
    { unfold drain. by rewrite Ha, Hq, Hd. }
    destruct Hs as [-> | ->]; by rewrite Hdr.
  - change (pulls (S (length (m :: q)))) with (ARun :: pulls (S (length q))).
    rewrite outputs_cons, final_cons.
    assert (Hdr : (step dec parse ARun st)
                  = (set_control (pending st) GYield (set_queue q st), [Yielded m])).
    { simpl. unfold drain. rewrite Ha, Hq. by destruct Hs as [-> | ->]. }
    rewrite Hdr. simpl.
    destruct (IH (set_control (pending st) GYield (set_queue q st))) as [Ho Hf]; auto.
    rewrite Ho, Hf. done.
Qed.

(** Without a cancellation, whatever is in the queue is yielded, first in
    first out, before the generator can throw. *)
Lemma throw_after_queue tr st pre e post :
  Forall (fun a => is_abort a = false) tr ->
  wf st -> aborted st = false ->
  outputs dec parse tr st = pre ++ Ended (Threw e) :: post ->
  queue st `prefix_of` yields pre.
Proof.
  intros Hq. revert st pre. induction Hq as [|a tr Hqa Hq IH]; intros st pre Hwf Ha Hout.
  - by destruct pre.
  - rewrite outputs_cons in Hout.
    assert (Hwf' := wf_step a st Hwf).
    destruct a; try done.
    + (* message *)
      rewrite event_silent in Hout by done. simpl in Hout.
      apply IH in Hout; [|done|]; simpl in *.
      * destruct (listening st); [|done]. revert Hout. unfold onMessage.
        split_tests; simpl; done.
      * destruct (listening st); [|done]. unfold onMessage. split_tests; simpl; done.
    + (* error *)
      rewrite event_silent in Hout by done. simpl in Hout.
      apply IH in Hout; [|done|]; simpl in *.
      * destruct (listening st); [|done]. revert Hout. unfold onError, wake.
        split_tests; simpl; done.
      * destruct (listening st); [|done]. unfold onError, wake. split_tests; simpl; done.
    + (* close *)
      rewrite event_silent in Hout by done. simpl in Hout.
      apply IH in Hout; [|done|]; simpl in *.
      * destruct (listening st); [|done]. revert Hout. unfold onClose, wake.
        split_tests; simpl; done.
      * destruct (listening st); [|done]. unfold onClose, wake. split_tests; simpl; done.
    + (* blob *)
      rewrite event_silent in Hout by done. simpl in Hout.
      apply IH in Hout; [|done|]; simpl in *.
      * revert Hout. split_tests; simpl; done.
      * split_tests; simpl; done.
    + (* tick *)
      rewrite event_silent in Hout by done. simpl in Hout.
      apply IH in Hout; [|done|]; simpl in *.
      * revert Hout. destruct (microtasks st) as [|[text|bytes] rest]; simpl; try done.
        unfold onMessage_decoded, wake.
        destruct (accept parse text) as [m|]; [|done].
        destruct (is_completion m); simpl; destruct (pending st); simpl;
          intros H; by eapply prefix_app_l.
      * destruct (microtasks st) as [|[text|bytes] rest]; simpl; try done.
        unfold onMessage_decoded, wake. split_tests; simpl; done.
    + (* run *)
      destruct (consumer_step_keeps ARun st) as (_ & _ & _ & Ha' & _); [auto|].
      rewrite Ha in Ha'.
      assert (Hcases :
        (step dec parse ARun st).2 = [] /\ queue (step dec parse ARun st).1 = queue st \/
        (exists m, (step dec parse ARun st).2 = [Yielded m] /\
                   queue st = m :: queue (step dec parse ARun st).1) \/
        (exists r, (step dec parse ARun st).2 = [Ended r] /\ queue st = [] /\
                   status (step dec parse ARun st).1 = GDone r)).
      { simpl. unfold drain. simpl. rewrite Ha.
        destruct (status st); simpl; auto;
          destruct (queue st) as [|m q] eqn:Eq; simpl; rewrite ?Eq; eauto;
          destruct (done st); simpl; rewrite ?Eq; eauto 10. }
      destruct Hcases as [[Ho Hqu] | [(m & Ho & Hqu) | (r & Ho & Hqu & Hs)]].
      * rewrite Ho in Hout. simpl in Hout. rewrite <- Hqu. apply IH; auto; congruence.
      * rewrite Ho in Hout. destruct pre as [|x pre]; simpl in Hout; [done|].
        injection Hout as <- Hout. simpl. rewrite Hqu. apply prefix_cons.
        apply IH; auto; congruence.
      * rewrite Hqu. apply prefix_nil.
    + (* return *)
      assert (Hcases :
        (step dec parse AReturn st).2 = [] /\ (step dec parse AReturn st).1 = st \/
        (step dec parse AReturn st).2 = [Ended Returned] /\
        status (step dec parse AReturn st).1 = GDone Returned).
      { simpl. destruct (status st); simpl; auto. }
      destruct Hcases as [[Ho Hst] | [Ho Hs]].
      * rewrite Ho, Hst in Hout. by apply IH.
      * rewrite Ho in Hout. rewrite (outputs_after_end tr Returned) in Hout by done.
        by destruct pre as [|? [|? ?]].
Qed.

(** *** Order of arrival *)

Lemma heard_cons a tr st :
  heard dec parse (a :: tr) st = heard_now a st ++ heard dec parse tr (step dec parse a st).1.
Proof. destruct a; simpl; try done. by destruct (listening st). Qed.

Lemma wake_data st :
  queue (wake st) = queue st /\ microtasks (wake st) = microtasks st /\ blobs (wake st) = blobs st.
Proof. unfold wake. by destruct (pending st). Qed.

Lemma in_flight_wake st : in_flight dec parse (wake st) = in_flight dec parse st.
Proof. unfold in_flight. by destruct (wake_data st) as (_ & -> & _). Qed.

(** One step, when no arrayBuffer() promise is outstanding and the frame,
    if any, is not blob-like: yielded, buffered and in-flight messages
    together are those of before, followed by the frame's message. *)
Lemma sync_step a st :
  is_blob_frame a = false ->
  blobs st = [] -> Forall (fun t => is_decoded t = true) (microtasks st) ->
  blobs (step dec parse a st).1 = [] /\
  Forall (fun t => is_decoded t = true) (microtasks (step dec parse a st).1) /\
  yields (step dec parse a st).2 ++ queue (step dec parse a st).1
    ++ in_flight dec parse (step dec parse a st).1
  = queue st ++ in_flight dec parse st ++ omap (message_of dec parse) (heard_now a st).
Proof.
  intros Hnb Hb Hm.
  destruct a;
    [ | | | | |
     | destruct (consumer_step_keeps ARun st) as (_ & _ & _ & _ & Hmt & Hbl); [auto|]
     | destruct (consumer_step_keeps AReturn st) as (_ & _ & _ & _ & Hmt & Hbl); [auto|]].
  - (* message *)
    simpl. destruct (listening st); simpl; [|by rewrite app_nil_r].
    destruct ev as [|o]; simpl; [by rewrite app_nil_r|].
    destruct (ev_data o) as [data|] eqn:Ed; simpl; [|by rewrite app_nil_r].
    simpl in Hnb. rewrite Ed in Hnb.
    assert (Hone : forall text,
      blobs (set_microtasks (microtasks st ++ [TDecoded text]) st) = [] /\
      Forall (fun t => is_decoded t = true)
        (microtasks (set_microtasks (microtasks st ++ [TDecoded text]) st)) /\
      queue (set_microtasks (microtasks st ++ [TDecoded text]) st)
        ++ in_flight dec parse (set_microtasks (microtasks st ++ [TDecoded text]) st)
      = queue st ++ in_flight dec parse st
        ++ match Decoder.accept parse text with Some m => [m] | None => [] end).
    { intros text. unfold in_flight. simpl. split; [done|]. split.
      - apply Forall_app. split; [done|]. by constructor.
      - rewrite omap_app. simpl. by destruct (Decoder.accept parse text). }
    destruct data; try done; apply Hone.
  - (* error *)
    simpl. destruct (listening st); simpl; [|by rewrite app_nil_r].
    unfold onError. rewrite in_flight_wake. destruct (wake_data (set_done
      (set_failed (extractWebSocketError ev) st))) as (-> & -> & ->). simpl.
    by rewrite app_nil_r.
  - (* close *)
    simpl. destruct (listening st); simpl; [|by rewrite app_nil_r].
    unfold onClose. destruct (sawCompletion st); [|destruct (failed st)];
      rewrite in_flight_wake;
      match goal with |- context [wake ?s] => destruct (wake_data s) as (-> & -> & ->) end;
      simpl; by rewrite app_nil_r.
  - (* cancellation *)
    simpl. destruct (aborted st); simpl; [by rewrite app_nil_r|].
    destruct (listening st); simpl; [|by rewrite app_nil_r].
    unfold onAbort. rewrite in_flight_wake.
    match goal with |- context [wake ?s] => destruct (wake_data s) as (-> & -> & ->) end.
    simpl. by rewrite app_nil_r.
  - (* blob *)
    simpl. rewrite Hb. rewrite lookup_nil. simpl. by rewrite app_nil_r.
  - (* tick *)
    simpl. destruct (microtasks st) as [|[text|bytes] rest] eqn:Em; simpl.
    + rewrite Em. by rewrite app_nil_r.
    + apply Forall_cons in Hm as [_ Hm].
      unfold onMessage_decoded. unfold in_flight at 2. rewrite Em. simpl.
      destruct (Decoder.accept parse text) as [m|]; simpl.
      * rewrite in_flight_wake.
        match goal with |- context [wake ?s] => destruct (wake_data s) as (-> & -> & ->) end.
        destruct (is_completion m); simpl; unfold in_flight; simpl;
          rewrite app_nil_r, <- app_assoc; done.
      * unfold in_flight; simpl. by rewrite app_nil_r.
    + by apply Forall_cons in Hm as [? _].
  - (* run *)
    rewrite Hbl. unfold in_flight. rewrite Hmt. split; [done|]. split; [done|].
    simpl. rewrite app_nil_r. unfold drain.
    destruct (status st); simpl; try done;
      destruct (aborted st); simpl; try done;
      destruct (queue st) as [|m q] eqn:Eq; simpl; rewrite ?Eq; try done;
      destruct (done st); simpl; rewrite ?Eq; done.
  - (* return *)
    rewrite Hbl. unfold in_flight. rewrite Hmt. split; [done|]. split; [done|].
    simpl. rewrite app_nil_r. destruct (status st); simpl; done.
Qed.

Lemma sync_run tr st :
  Forall (fun a => is_blob_frame a = false) tr ->
  blobs st = [] -> Forall (fun t => is_decoded t = true) (microtasks st) ->
  yields (outputs dec parse tr st) ++ queue (final dec parse tr st)
    ++ in_flight dec parse (final dec parse tr st)
  = queue st ++ in_flight dec parse st
    ++ omap (message_of dec parse) (heard dec parse tr st).
Proof.
  intros Hnb. revert st. induction Hnb as [|a tr Ha Hnb IH]; intros st Hb Hm.
  - simpl. by rewrite app_nil_r.
  - rewrite outputs_cons, final_cons, heard_cons. unfold yields in *.
    destruct (sync_step a st Ha Hb Hm) as (Hb' & Hm' & Hstep).
    rewrite !omap_app, <- app_assoc, (IH _ Hb' Hm').
    rewrite !app_assoc. f_equal. rewrite <- !app_assoc. exact Hstep.
Qed.

(** *** Cancellation leaves a failure behind *)

Lemma abort_recorded_step a st :
  abort_recorded st -> abort_recorded (step dec parse a st).1.
Proof.
  unfold abort_recorded. destruct st as [q p d f sc li s ab mt bl]. simpl. intros H.
  destruct a; simpl;
    unfold onMessage, onError, onClose, onAbort, onMessage_decoded, drain, wake, finish; simpl;
    split_tests; simpl in *; auto; intros; try done; eauto.
Qed.

Lemma abort_recorded_reachable tr : abort_recorded (final dec parse tr init).
Proof.
  assert (H : forall st, abort_recorded st -> abort_recorded (final dec parse tr st)).
  { induction tr as [|a tr IH]; intros st Hst; [done|].
    rewrite final_cons. apply IH. by apply abort_recorded_step. }
  apply H. by intros ?.
Qed.

Lemma completion_sets_done_step a st :
  completion_sets_done st -> completion_sets_done (step dec parse a st).1.
Proof.
  unfold completion_sets_done. destruct st as [q p d f sc li s ab mt bl]. simpl. intros H.
  destruct a; simpl;
    unfold onMessage, onError, onClose, onAbort, onMessage_decoded, drain, wake, finish; simpl;
    split_tests; simpl in *; auto.
Qed.

Lemma completion_sets_done_reachable tr : completion_sets_done (final dec parse tr init).
Proof.
  assert (H : forall st, completion_sets_done st -> completion_sets_done (final dec parse tr st)).
  { induction tr as [|a tr IH]; intros st Hst; [done|].
    rewrite final_cons. apply IH. by apply completion_sets_done_step. }
  apply H. by intros ?.
Qed.

(** A listening decoder without a captured failure has not been cancelled. *)
Lemma unfailed_not_aborted tr :
  listening (final dec parse tr init) = true ->
  failed (final dec parse tr init) = None ->
  aborted (final dec parse tr init) = false.
Proof.
  intros Hl Hf. destruct (aborted (final dec parse tr init)) eqn:Ea; [|done].
  destruct (abort_recorded_reachable tr Hl Ea) as [e He]. congruence.
Qed.

(** A handler that has set [done] leaves the generator ready to run. *)
Lemma ready_after_done st :
  wf st -> listening st = true -> done st = true ->
  status st = GYield \/ status st = GWoken.
Proof.
  intros [H1 H2 H3 H4] Hl Hd. apply H4 in Hl as [?|[Hs|?]]; auto.
  apply H3 in Hs. congruence.
Qed.

Lemma onClose_effect ev st :
  done (onClose ev st) = true /\
  queue (onClose ev st) = queue st /\
  aborted (onClose ev st) = aborted st /\
  listening (onClose ev st) = listening st /\
  sawCompletion (onClose ev st) = sawCompletion st /\
  failed (onClose ev st) =
    (if sawCompletion st then failed st
     else match failed st with
          | None => Some (extractWebSocketCloseError ev)
          | Some e => Some e
          end).
Proof.
  destruct st as [q p d f sc li s ab mt bl]. unfold onClose, wake. simpl.
  destruct sc, f, p; simpl; done.
Qed.

Lemma onError_effect ev st :
  done (onError ev st) = true /\
  queue (onError ev st) = queue st /\
  aborted (onError ev st) = aborted st /\
  listening (onError ev st) = listening st /\
  failed (onError ev st) = Some (extractWebSocketError ev).
Proof.
  destruct st as [q p d f sc li s ab mt bl]. unfold onError, wake. simpl.
  destruct p; simpl; done.
Qed.

(** *** Completion, close, failure and order *)

(** C2 (as the code has it).  Once a completion marker has been decoded and
    nothing has failed, the sequence can only end normally as long as no
    error event or cancellation arrives, and a close event captures nothing.
    At any later moment at which the generator is still alive, a consumer
    that keeps asking receives everything that is in the buffer by then,
    frames decoded after the completion message included, followed by the
    normal end; after the end nothing more is yielded. *)
Theorem completion_ends_after_drain tr1 tr2 :
  listening (final dec parse tr1 init) = true ->
  sawCompletion (final dec parse tr1 init) = true ->
  failed (final dec parse tr1 init) = None ->
  Forall (fun a => quiet a = true) tr2 ->
  let st := final dec parse tr1 init in
  let st2 := final dec parse tr2 st in
  (forall r, Ended r ∈ outputs dec parse tr2 st -> r = Returned) /\
  (forall ev, failed (step dec parse (AClose ev) st).1 = None /\
              queue (step dec parse (AClose ev) st).1 = queue st) /\
  (listening st2 = true ->
   outputs dec parse (pulls (S (length (queue st2)))) st2
     = map Yielded (queue st2) ++ [Ended Returned] /\
   forall tr', outputs dec parse tr' (final dec parse (pulls (S (length (queue st2)))) st2) = []).
Proof.
  intros Hl Hc Hf Hq. cbv zeta.
  pose proof (unfailed_not_aborted tr1 Hl Hf) as Ha.
  pose proof (completion_sets_done_reachable (tr1 ++ tr2)) as Hd2.
  rewrite final_app in Hd2.
  set (st := final dec parse tr1 init) in *.
  assert (Hwf : wf st) by apply wf_final, wf_init.
  destruct (quiet_run_keeps_clean tr2 st Hq Ha Hf Hc) as (Ha2 & Hf2 & Hc2).
  set (st2 := final dec parse tr2 st) in *.
  assert (Hwf2 : wf st2) by (by apply wf_final).
  split_and!.
  - intros r. by apply clean_end_only.
  - intros ev. simpl. rewrite Hl.
    destruct (onClose_effect ev st) as (_ & -> & _ & _ & _ & ->). by rewrite Hc.
  - intros Hl2. specialize (Hd2 Hc2).
    assert (Hal : after_loop st2 = Returned) by (unfold after_loop; by rewrite Hf2, Hc2).
    destruct (pulls_drain (queue st2) st2 eq_refl Ha2 Hd2 (ready_after_done st2 Hwf2 Hl2 Hd2))
      as [Ho Hs].
    rewrite Hal in Ho, Hs. split; [exact Ho|].
    intros tr'. apply (outputs_after_end tr' Returned); [by apply wf_final | done].
Qed.

(** C3 (as the code has it).  A close event that reaches the decoder sets
    [done].  After a completion marker it captures nothing, and when no
    failure was captured before, the sequence ends normally.  Before a
    completion marker, when no failure was captured before, it captures the
    error built from the event's code and reason, and that error is what the
    consumer gets once the buffer is drained.  Both outcomes hold for
    whatever else happens afterwards, short of an error event or a
    cancellation, which replace the captured failure. *)
Theorem close_event_outcome tr1 ev tr2 :
  listening (final dec parse tr1 init) = true ->
  let st := final dec parse tr1 init in
  let st' := (step dec parse (AClose ev) st).1 in
  done st' = true /\ queue st' = queue st /\
  (sawCompletion st = true -> failed st' = failed st) /\
  (failed st = None ->
   Forall (fun a => quiet a = true) tr2 ->
   (sawCompletion st = true ->
    failed st' = None /\
    (forall r, Ended r ∈ outputs dec parse tr2 st' -> r = Returned) /\
    outputs dec parse (pulls (S (length (queue st)))) st'
      = map Yielded (queue st) ++ [Ended Returned]) /\
   (sawCompletion st = false ->
    failed st' = Some (extractWebSocketCloseError ev) /\
    (forall e, Ended (Threw e) ∈ outputs dec parse tr2 st' -> e = extractWebSocketCloseError ev) /\
    outputs dec parse (pulls (S (length (queue st)))) st'
      = map Yielded (queue st) ++ [Ended (Threw (extractWebSocketCloseError ev))])).
Proof.
  intros Hl. cbv zeta.
  pose proof (unfailed_not_aborted tr1 Hl) as Hna.
  set (st := final dec parse tr1 init) in *.
  set (st' := (step dec parse (AClose ev) st).1).
  assert (Hwf : wf st) by apply wf_final, wf_init.
  assert (Hst' : st' = onClose ev st) by (unfold st'; simpl; by rewrite Hl).
  assert (Hwf' : wf st') by (by apply wf_step).
  destruct (onClose_effect ev st) as (Hd & Hqu & Ha' & Hl' & Hc' & Hf').
  rewrite <- Hst' in Hd, Hqu, Ha', Hl', Hc', Hf'. rewrite Hl in Hl'.
  split_and!; [done | done | |].
  - intros Hc. by rewrite Hc in Hf'.
  - intros Hf Hq. rewrite (Hna Hf) in Ha'.
    pose proof (ready_after_done st' Hwf' Hl' Hd) as Hready.
    destruct (pulls_drain (queue st') st' eq_refl Ha' Hd Hready) as [Ho _].
    rewrite Hqu in Ho. rewrite Hf in Hf'. split.
    + intros Hc. rewrite Hc in Hf', Hc'. split_and!; [done | |].
      * intros r. by apply clean_end_only.
      * rewrite Ho. unfold after_loop. by rewrite Hf', Hc'.
    + intros Hc. rewrite Hc in Hf', Hc'. split_and!; [done | |].
      * intros e. by apply failure_end_only.
      * rewrite Ho. unfold after_loop. by rewrite Hf'.
Qed.

(** C4 (as the code has it).  When a failure is captured from an error
    event or from a premature close, the consumer that keeps asking gets
    every buffered message, in order, and then that failure; and in any
    continuation without a cancellation, nothing is thrown before the
    messages that were buffered at that moment have been yielded. *)
Theorem buffered_before_failure tr1 a tr2 :
  listening (final dec parse tr1 init) = true ->
  aborted (final dec parse tr1 init) = false ->
  captures_failure a (final dec parse tr1 init) = true ->
  Forall (fun b => is_abort b = false) tr2 ->
  let st := final dec parse tr1 init in
  let st' := (step dec parse a st).1 in
  exists e,
    failed st' = Some e /\ queue st' = queue st /\
    outputs dec parse (pulls (S (length (queue st)))) st'
      = map Yielded (queue st) ++ [Ended (Threw e)] /\
    forall pre e' post,
      outputs dec parse tr2 st' = pre ++ Ended (Threw e') :: post ->
      queue st `prefix_of` yields pre.
Proof.
  intros Hl Ha Hcap Hq. cbv zeta.
  set (st := final dec parse tr1 init) in *.
  set (st' := (step dec parse a st).1).
  assert (Hwf : wf st) by apply wf_final, wf_init.
  assert (Hwf' : wf st') by (by apply wf_step).
  assert (Hfacts : exists e, failed st' = Some e /\ queue st' = queue st /\ done st' = true /\
                             aborted st' = false /\ listening st' = true).
  { unfold st'. destruct a; try done; simpl; rewrite Hl.
    - destruct (onError_effect ev st) as (-> & -> & -> & -> & ->). eauto 10.
    - destruct (onClose_effect ev st) as (-> & -> & -> & -> & _ & ->).
      simpl in Hcap. destruct (sawCompletion st); [done|].
      destruct (failed st); [done|]. eauto 10. }
  destruct Hfacts as (e & Hf' & Hqu & Hd' & Ha' & Hl').
  exists e. split_and!; [done | done | |].
  - destruct (pulls_drain (queue st') st' eq_refl Ha' Hd' (ready_after_done st' Hwf' Hl' Hd'))
      as [Ho _].
    rewrite Hqu in Ho. rewrite Ho. unfold after_loop. by rewrite Hf'.
  - intros pre e' post Hout. rewrite <- Hqu. by eapply throw_after_queue.
Qed.

(** C6 (as the code has it).  When no frame is blob-like, the messages
    yielded so far, then the buffered ones, then those still being decoded
    are exactly the messages of the frames heard so far, in the order in
    which the frames arrived; in particular the yielded messages are an
    initial segment of them. *)
Theorem sync_frames_in_arrival_order tr :
  Forall (fun a => is_blob_frame a = false) tr ->
  yields (outputs dec parse tr init) ++ queue (final dec parse tr init)
    ++ in_flight dec parse (final dec parse tr init)
  = omap (message_of dec parse) (heard dec parse tr init) /\
  yields (outputs dec parse tr init)
    `prefix_of` omap (message_of dec parse) (heard dec parse tr init).
Proof.
  intros Hnb. pose proof (sync_run tr init Hnb eq_refl (Forall_nil_2 _)) as H.
  simpl in H. split; [exact H|]. rewrite <- H. by eexists.
Qed.


End DecoderFacts.

Section DecoderExamples.
Import Decoder.

Lemma completion_ends_after_drain_witness :
  let st := final sample_decode sample_parse trace_to_completion init in
  let st2 := final sample_decode sample_parse trace_after_completion st in
  (forall r, Ended r ∈ outputs sample_decode sample_parse trace_after_completion st ->
             r = Returned) /\
  outputs sample_decode sample_parse (pulls (S (length (queue st2)))) st2
  = map Yielded (queue st2) ++ [Ended Returned].
Proof.
  destruct (completion_ends_after_drain sample_decode sample_parse trace_to_completion
              trace_after_completion eq_refl eq_refl eq_refl)
    as (Hend & _ & Hpull); [repeat constructor|].
  destruct (Hpull eq_refl) as (Ho & _).
  split; [exact Hend | exact Ho].
Defined.

(** The same run, spelled out: the frame that follows the completion frame
    is yielded after it, the close event changes nothing, and the sequence
    ends normally. *)
Example run_after_completion :
  outputs sample_decode sample_parse
    (trace_to_completion ++ trace_after_completion ++ pulls 4) init
  = [Yielded (typed "response.output_text.delta"); Yielded (typed "response.completed");
     Yielded (typed "response.created"); Ended Returned].
Proof. reflexivity. Qed.

(** C2 as stated fails: the delta frame arrives after the completion frame,
    while the consumer has not yet asked for more, and is yielded after the
    completion message. *)
Lemma frame_after_completion_is_yielded :
  heard sample_decode sample_parse trace_frame_after_completion init
    = [text_frame "response.completed"; text_frame "response.output_text.delta"] /\
  outputs sample_decode sample_parse trace_frame_after_completion init
    = [Yielded (typed "response.completed"); Yielded (typed "response.output_text.delta");
       Ended Returned] /\
  ~ stops_at_completion (outputs sample_decode sample_parse trace_frame_after_completion init).
Proof.
  split_and!; [reflexivity | reflexivity |].
  intros H.
  specialize (H [] (typed "response.completed") [typed "response.output_text.delta"]
                eq_refl eq_refl).
  discriminate H.
Qed.

Lemma close_event_outcome_witness :
  outputs sample_decode sample_parse (pulls 2)
    (step sample_decode sample_parse (AClose close_1006)
       (final sample_decode sample_parse trace_one_delta init)).1
  = [Yielded (typed "response.output_text.delta");
     Ended (Threw (mkError "WebSocket closed 1006 abnormal"))] /\
  outputs sample_decode sample_parse (pulls 3)
    (step sample_decode sample_parse (AClose close_1006)
       (final sample_decode sample_parse trace_to_completion init)).1
  = [Yielded (typed "response.output_text.delta"); Yielded (typed "response.completed");
     Ended Returned].
Proof.
  destruct (close_event_outcome sample_decode sample_parse trace_one_delta close_1006 [ARun]
              eq_refl) as (_ & _ & _ & Hearly).
  destruct (close_event_outcome sample_decode sample_parse trace_to_completion close_1006 [ARun]
              eq_refl) as (_ & _ & _ & Hlate).
  destruct (Hearly eq_refl) as (_ & Hearly'); [repeat constructor|].
  destruct (Hlate eq_refl) as (Hlate' & _); [repeat constructor|].
  destruct (Hearly' eq_refl) as (_ & _ & Ho1).
  destruct (Hlate' eq_refl) as (_ & _ & Ho2).
  split; [exact Ho1 | exact Ho2].
Defined.

Lemma buffered_before_failure_witness :
  exists e,
    failed (step sample_decode sample_parse (AError error_boom)
              (final sample_decode sample_parse trace_one_delta init)).1 = Some e /\
    outputs sample_decode sample_parse (pulls 2)
      (step sample_decode sample_parse (AError error_boom)
         (final sample_decode sample_parse trace_one_delta init)).1
    = [Yielded (typed "response.output_text.delta"); Ended (Threw e)].
Proof.
  destruct (buffered_before_failure sample_decode sample_parse trace_one_delta
              (AError error_boom) [ARun; ARun] eq_refl eq_refl eq_refl)
    as (e & Hf & _ & Ho & _); [repeat constructor|].
  exists e. split; [exact Hf | exact Ho].
Defined.

(** C4 as stated fails for a cancellation: the delta message is in the
    buffer when the abort is captured, and the next thing the consumer gets
    is the error. *)
Lemma abort_drops_buffered :
  queue (final sample_decode sample_parse trace_abort_with_buffer init)
    = [typed "response.output_text.delta"] /\
  failed (final sample_decode sample_parse trace_abort_with_buffer init)
    = Some (mkError "Request was aborted") /\
  outputs sample_decode sample_parse [ARun]
    (final sample_decode sample_parse trace_abort_with_buffer init)
    = [] ++ Ended (Threw (mkError "Request was aborted")) :: [] /\
  ~ queue (final sample_decode sample_parse trace_abort_with_buffer init) `prefix_of` yields [] /\
  outputs sample_decode sample_parse (trace_abort_with_buffer ++ [ARun]) init
    = [Yielded (typed "response.created"); Ended (Threw (mkError "Request was aborted"))].
Proof.
  split_and!; try reflexivity.
  intros [k Hk]. vm_compute in Hk. discriminate Hk.
Qed.

Lemma sync_frames_in_arrival_order_witness :
  yields (outputs sample_decode sample_parse trace_frame_after_completion init)
    `prefix_of` omap (message_of sample_decode sample_parse)
                  (heard sample_decode sample_parse trace_frame_after_completion init).
Proof.
  apply (sync_frames_in_arrival_order sample_decode sample_parse trace_frame_after_completion).
  repeat constructor.
Defined.

(** C6 as stated fails: the blob-like frame arrives first, its bytes become
    available after the text frame has been decoded, and its message is
    yielded second. *)
Lemma blob_frame_overtaken :
  omap (message_of sample_decode sample_parse)
    (heard sample_decode sample_parse trace_blob_then_text init)
    = [typed "response.created"; typed "response.output_text.delta"] /\
  yields (outputs sample_decode sample_parse trace_blob_then_text init)
    = [typed "response.output_text.delta"; typed "response.created"] /\
  ~ yields (outputs sample_decode sample_parse trace_blob_then_text init)
      `prefix_of` omap (message_of sample_decode sample_parse)
                    (heard sample_decode sample_parse trace_blob_then_text init).
Proof.
  split_and!; [reflexivity | reflexivity |].
  intros [k Hk]. vm_compute in Hk. discriminate Hk.
Qed.



(** C3 as stated fails without its side conditions.  First run: the
    completion frame is decoded, an error event follows, then the close;
    the close comes after completion, yet the sequence ends with the error.
    Second run: the close comes before completion and captures its error,
    an error event follows, and the consumer gets that one instead. *)
Lemma close_outcome_overridden :
  (sawCompletion (final sample_decode sample_parse trace_error_after_completion init) = true /\
   listening (final sample_decode sample_parse trace_error_after_completion init) = true /\
   outputs sample_decode sample_parse (AClose close_1006 :: pulls 2)
     (final sample_decode sample_parse trace_error_after_completion init)
   = [Yielded (typed "response.completed"); Ended (Threw (mkError "boom"))]) /\
  (failed (final sample_decode sample_parse [ARun] init) = None /\
   sawCompletion (final sample_decode sample_parse [ARun] init) = false /\
   failed (final sample_decode sample_parse [ARun; AClose close_1006] init)
   = Some (mkError "WebSocket closed 1006 abnormal") /\
   outputs sample_decode sample_parse trace_error_after_close init
   = [Ended (Threw (mkError "boom"))] /\
   Ended (Threw (extractWebSocketCloseError close_1006))
     ∉ outputs sample_decode sample_parse trace_error_after_close init).
Proof.
  split; split_and!; try reflexivity.
  intros H. vm_compute in H. apply list_elem_of_singleton in H. discriminate H.
Qed.

End DecoderExamples.

(** * Further properties *)

(** ** Outgoing headers *)

Section HeaderFacts.
Import Headers.

Lemma headersToRecord_snoc entries key value :
  headersToRecord (entries ++ [(key, value)]) = assign (headersToRecord entries) key value.
Proof. unfold headersToRecord. by rewrite foldl_app. Qed.

Lemma assign_lookup out key value k :
  assign out key value !! k =
    if decide (key = k /\ key <> "__proto__"%string) then Some value else out !! k.
Proof.
  unfold assign. destruct (String.eqb_spec key "__proto__") as [->|Hne].
  - case_decide as H; [by destruct H|done].
  - case_decide as H.
    + destruct H as [-> _]. apply lookup_insert_eq.
    + apply lookup_insert_ne. intros ->. by apply H.
Qed.

Lemma last_entry_nil k v : ~ last_entry k v [].
Proof. intros (pre & post & H & _). by destruct pre. Qed.

Lemma last_entry_snoc k v entries key value :
  last_entry k v (entries ++ [(key, value)]) <->
  (k = key /\ v = value) \/ (k <> key /\ last_entry k v entries).
Proof.
  split.
  - intros (pre & post & Heq & Hnot).
    destruct post as [|x post _] using rev_ind.
    + apply app_inj_tail in Heq as [_ Heq]. left. by injection Heq.
    + rewrite app_comm_cons, app_assoc in Heq. apply app_inj_tail in Heq as [Heq <-].
      rewrite fmap_app in Hnot. simpl in Hnot.
      right. split.
      * intros ->. apply Hnot. apply elem_of_app. right. apply list_elem_of_here.
      * exists pre, post. split; [done|]. intros Hin. apply Hnot. apply elem_of_app. by left.
  - intros [[-> ->] | [Hne (pre & post & -> & Hnot)]].
    + exists entries, []. split; [done|]. apply not_elem_of_nil.
    + exists pre, (post ++ [(key, value)]). split; [by rewrite <- app_assoc|].
      rewrite fmap_app. simpl. intros [Hin|Hin]%elem_of_app; [done|].
      apply list_elem_of_singleton in Hin. done.
Qed.

Lemma headersToRecord_lookup entries k v :
  headersToRecord entries !! k = Some v <->
  k <> "__proto__"%string /\ last_entry k v entries.
Proof.
  revert v. induction entries as [|[key value] entries IH] using rev_ind; intros v.
  - unfold headersToRecord. simpl. rewrite lookup_empty. split; [done|].
    intros [_ H]. by apply last_entry_nil in H.
  - rewrite headersToRecord_snoc, assign_lookup, last_entry_snoc. case_decide as Hk.
    + destruct Hk as [-> Hp]. split.
      * intros [= ->]. auto.
      * intros [_ [[_ ->] | [Hne _]]]; done.
    + rewrite IH. split.
      * intros [Hp Hl]. split; [done|]. right. split; [|done].
        intros ->. apply Hk. done.
      * intros [Hp [[-> ->] | [Hne Hl]]]; [by destruct Hk|done].
Qed.

(** The record handed to the WebSocket constructor always carries the
    protocol header with the fixed value, whatever the caller's headers
    contain; every other key holds the value of its last entry; and
    [__proto__] is never one of its keys. *)
Theorem ws_headers_content entries :
  wsHeaders entries !! "OpenAI-Beta"%string = Some OPENAI_BETA_RESPONSES_WEBSOCKETS /\
  wsHeaders entries !! "__proto__"%string = None /\
  forall k v, k <> "OpenAI-Beta"%string ->
    (wsHeaders entries !! k = Some v <-> k <> "__proto__"%string /\ last_entry k v entries).
Proof.
  unfold wsHeaders. split_and!.
  - rewrite assign_lookup. by rewrite decide_True.
  - rewrite assign_lookup. rewrite decide_False by (intros [H _]; discriminate H).
    destruct (headersToRecord entries !! "__proto__"%string) as [v|] eqn:E; [|done].
    apply headersToRecord_lookup in E as [E _]. done.
  - intros k v Hk. rewrite assign_lookup.
    rewrite decide_False by (intros [H _]; by apply Hk). apply headersToRecord_lookup.
Qed.

End HeaderFacts.

(** ** Connection establisher: who closes the socket *)

Section ConnectMore.
Import Connect.

(** [connectWebSocket] calls [close] on the socket it created only when the
    cancellation wins the race, and then exactly once, with (1000,
    "aborted"); when open, error or close wins, or nothing fires, it never
    closes it. *)
Theorem connect_closes_only_on_abort (e : env) (sigs : list signal) :
  closes (fst (run e sigs (init e))) =
    match first_delivered e sigs with
    | Some SigAbort => [(1000, "aborted"%string)]
    | _ => []
    end.
Proof.
  unfold first_delivered. induction sigs as [|s sigs IH]; [done|].
  rewrite filter_cons. destruct (decide (registered s (init e) = true)) as [Hreg|Hreg].
  - cbn [head run]. destruct (fire_first e s Hreg) as (st & Hf & Hno & _ & _ & Hcl).
    rewrite Hf. rewrite (run_no_listeners e sigs st Hno). cbn [fst]. rewrite Hcl.
    by destruct s.
  - apply not_true_is_false in Hreg. cbn [run]. rewrite (fire_unregistered e s _ Hreg).
    destruct (run e sigs (init e)) as [st2 bs]. exact IH.
Qed.

End ConnectMore.

(** ** The message of an error event *)

Section ErrorFacts.

(** The error of an error event carries the event's [message] whenever that
    is a non-empty string, and the text "WebSocket error" whenever the event
    is not an object, has no string [message], or an empty one; its message
    is never empty. *)
Theorem error_event_message ev :
  nonempty (message (extractWebSocketError ev)) = true /\
  (forall o m, ev = EvObj o -> ev_message o = Some m -> nonempty m = true ->
     extractWebSocketError ev = mkError m) /\
  ((forall o m, ev = EvObj o -> ev_message o = Some m -> nonempty m = false) ->
     extractWebSocketError ev = mkError "WebSocket error").
Proof.
  split_and!.
  - destruct ev as [|o]; simpl; [done|].
    destruct (ev_message o) as [m|]; simpl; [|done]. by destruct (nonempty m) eqn:En.
  - intros o m -> Hm Hn. simpl. by rewrite Hm, Hn.
  - intros Hnone. destruct ev as [|o]; simpl; [done|].
    destruct (ev_message o) as [m|] eqn:Hm; simpl; [|done].
    by rewrite (Hnone o m eq_refl Hm).
Qed.

Lemma error_event_message_witness :
  extractWebSocketError Decoder.error_boom = mkError "boom" /\
  extractWebSocketError EvNonObject = mkError "WebSocket error".
Proof.
  destruct (error_event_message Decoder.error_boom) as (_ & Hcarry & _).
  destruct (error_event_message EvNonObject) as (_ & _ & Hdefault).
  split.
  - exact (Hcarry _ _ eq_refl eq_refl eq_refl).
  - apply Hdefault. intros o m H. discriminate H.
Defined.

End ErrorFacts.

(** ** Session cache: timers and entries over whole runs *)

Section PoolRunFacts.
Import Pool PoolRuns.

(** [timers_ok] only looks at the timers, the entries and the counter. *)
Lemma timers_ok_ext w w' :
  timers w' = timers w -> entries w' = entries w -> next_timer w' = next_timer w ->
  timers_ok w -> timers_ok w'.
Proof.
  intros Ht He Hn [H1 H2 H3]. split; rewrite ?Ht, ?He, ?Hn; done.
Qed.

Lemma timers_ok_clear t w : timers_ok w -> timers_ok (clearTimeout t w).
Proof.
  intros [H1 H2 H3]. split; simpl.
  - intros t' cb Hl. apply lookup_delete_Some in Hl as [_ Hl]. eauto.
  - intros t' cb Hl. apply lookup_delete_Some in Hl as [_ Hl]. eauto.
  - done.
Qed.

(** After cancelling the handle stored on an entry, nothing is pending for
    that entry. *)
Lemma none_pending_after_clear l e w :
  timers_ok w -> entries w !! l = Some e ->
  forall t cb,
    timers (match idleTimer e with Some t0 => clearTimeout t0 w | None => w end) !! t = Some cb ->
    t_entry cb <> l.
Proof.
  intros [H1 _ _] He t cb Hl Heq.
  destruct (idleTimer e) as [t0|] eqn:Ei; simpl in Hl.
  - apply lookup_delete_Some in Hl as [Hne Hl].
    destruct (H1 t cb Hl) as (e' & He' & Hi & _). rewrite Heq, He in He'. congruence.
  - destruct (H1 t cb Hl) as (e' & He' & Hi & _). rewrite Heq, He in He'. congruence.
Qed.

(** Overwriting an entry for which nothing is pending. *)
Lemma timers_ok_set_entry l e' w :
  timers_ok w ->
  (forall t cb, timers w !! t = Some cb -> t_entry cb <> l) ->
  (forall t, idleTimer e' = Some t -> (t < next_timer w)%positive) ->
  timers_ok (set_entry l e' w).
Proof.
  intros [H1 H2 H3] Hnone Hfield. split; simpl.
  - intros t cb Hl. destruct (H1 t cb Hl) as (e & He & Hi & Hb).
    exists e. rewrite list_lookup_insert_ne by (intros Heq; exact (Hnone t cb Hl (eq_sym Heq))). done.
  - done.
  - intros l0 e0 t Hl Hi. rewrite list_lookup_insert in Hl. case_decide as Hd.
    + injection Hl as <-. by apply Hfield.
    + by eapply H3.
Qed.

(** Marking an entry idle keeps its pending timer valid. *)
Lemma timers_ok_set_idle l e w :
  timers_ok w -> entries w !! l = Some e ->
  timers_ok (set_entry l (mkEntry (socket e) false (idleTimer e)) w).
Proof.
  intros [H1 H2 H3] He. split; simpl.
  - intros t cb Hl. destruct (H1 t cb Hl) as (e0 & He0 & Hi & Hb).
    destruct (decide (t_entry cb = l)) as [Heq|Hne].
    + rewrite Heq in *. rewrite list_lookup_insert_eq by (by eapply lookup_lt_Some).
      eexists. split; [done|]. simpl. split; [congruence|done].
    + exists e0. by rewrite list_lookup_insert_ne.
  - done.
  - intros l0 e0 t Hl Hi. rewrite list_lookup_insert in Hl. case_decide as Hd.
    + injection Hl as <-. simpl in Hi. by eapply H3.
    + by eapply H3.
Qed.

Lemma timers_ok_schedule sid l e w :
  timers_ok w -> entries w !! l = Some e -> busy e = false ->
  timers_ok (scheduleSessionWebSocketExpiry sid l w).
Proof.
  intros Hok He Hb. unfold scheduleSessionWebSocketExpiry. rewrite He.
  pose proof (none_pending_after_clear l e w Hok He) as Hnone.
  set (w1 := match idleTimer e with Some t0 => clearTimeout t0 w | None => w end) in *.
  assert (Hok1 : timers_ok w1) by (unfold w1; destruct (idleTimer e); [by apply timers_ok_clear|done]).
  assert (He1 : entries w1 = entries w) by (unfold w1; by destruct (idleTimer e)).
  assert (Hn1 : next_timer w1 = next_timer w) by (unfold w1; by destruct (idleTimer e)).
  assert (Hlt : (l < length (entries w1))%nat) by (rewrite He1; by eapply lookup_lt_Some).
  destruct Hok1 as [H1 H2 H3]. simpl. split; simpl.
  - intros t cb Hl. apply lookup_insert_Some in Hl as [[<- <-] | [Hne Hl]].
    + simpl. rewrite list_lookup_insert_eq by done. eexists. split; [done|]. by rewrite Hb.
    + destruct (H1 t cb Hl) as (e0 & He0 & Hi & Hb0).
      exists e0. rewrite list_lookup_insert_ne by (intros Heq; exact (Hnone t cb Hl (eq_sym Heq))). done.
  - intros t cb Hl. apply lookup_insert_Some in Hl as [[<- <-] | [Hne Hl]]; [lia|].
    specialize (H2 t cb Hl). lia.
  - intros l0 e0 t Hl Hi. rewrite list_lookup_insert in Hl. case_decide as Hd.
    + injection Hl as <-. simpl in Hi. injection Hi as <-. lia.
    + specialize (H3 l0 e0 t Hl Hi). lia.
Qed.

Lemma timers_ok_release r keep w : timers_ok w -> timers_ok (release r keep w).
Proof.
  intros Hok. destruct r as [s|sid l|s|sid l]; simpl.
  - by destruct (bool_decide (keep = Some false)); apply (timers_ok_ext w).
  - destruct (entries w !! l) as [e|] eqn:He; [|done].
    destruct (not_keep keep || negb (isWebSocketReusable (socket e) w)).
    + by apply (timers_ok_ext w).
    + apply (timers_ok_schedule sid l (mkEntry (socket e) false (idleTimer e)));
        [by apply timers_ok_set_idle | | done].
      simpl. apply list_lookup_insert_eq. by eapply lookup_lt_Some.
  - by apply (timers_ok_ext w).
  - destruct (entries w !! l) as [e|] eqn:He; [|done].
    destruct (not_keep keep || negb (isWebSocketReusable (socket e) w)).
    + assert (Hok2 : timers_ok (match idleTimer e with
                                | Some t => clearTimeout t (closeWebSocketSilently (socket e) 1000 "done" w)
                                | None => closeWebSocketSilently (socket e) 1000 "done" w
                                end)).
      { destruct (idleTimer e); [apply timers_ok_clear|]; by apply (timers_ok_ext w). }
      case_bool_decide; [|done]. revert Hok2. by apply timers_ok_ext.
    + apply (timers_ok_schedule sid l (mkEntry (socket e) false (idleTimer e)));
        [by apply timers_ok_set_idle | | done].
      simpl. apply list_lookup_insert_eq. by eapply lookup_lt_Some.
Qed.

Lemma timers_ok_lookup sessionId w : timers_ok w -> timers_ok (snd (acquire_lookup sessionId w)).
Proof.
  intros Hok. unfold acquire_lookup. destruct sessionId as [sid|]; [|done].
  destruct (no_session (Some sid)); [done|].
  destruct (websocketSessionCache w !! sid) as [l|]; [|done].
  destruct (entries w !! l) as [e|] eqn:He; [|done].
  pose proof (none_pending_after_clear l e w Hok He) as Hnone.
  set (w1 := match idleTimer e with
             | Some t => set_entry l (mkEntry (socket e) (busy e) None) (clearTimeout t w)
             | None => w
             end).
  assert (Hok1 : timers_ok w1).
  { unfold w1. destruct (idleTimer e) as [t|] eqn:Ei; [|done].
    apply timers_ok_set_entry; [by apply timers_ok_clear | exact Hnone | done]. }
  assert (Hnone1 : forall t cb, timers w1 !! t = Some cb -> t_entry cb <> l).
  { unfold w1. destruct (idleTimer e) as [t|] eqn:Ei; exact Hnone. }
  destruct (negb (busy e) && isWebSocketReusable (socket e) w1); simpl.
  - by apply timers_ok_set_entry.
  - destruct (busy e); [done|].
    destruct (negb (isWebSocketReusable (socket e) w1)); [|done].
    revert Hok1. by apply timers_ok_ext.
Qed.

Lemma timers_ok_connected k s w : timers_ok w -> timers_ok (snd (acquire_connected k s w)).
Proof.
  intros [H1 H2 H3]. destruct k as [| |sid]; try done. split; simpl.
  - intros t cb Hl. destruct (H1 t cb Hl) as (e & He & Hi & Hb).
    exists e. rewrite lookup_app_l by (by eapply lookup_lt_Some). done.
  - done.
  - intros l e t Hl Hi. apply lookup_app_Some in Hl as [Hl | [_ Hl]]; [by eapply H3|].
    destruct (l - length (entries w))%nat; simpl in Hl; [|done].
    injection Hl as <-. done.
Qed.

Lemma timers_ok_fire t w : timers_ok w -> timers_ok (fire_timer t w).
Proof.
  intros Hok. unfold fire_timer. destruct (timers w !! t) as [cb|]; [|done].
  pose proof (timers_ok_clear t w Hok) as Hok1.
  destruct (entries (clearTimeout t w) !! t_entry cb) as [e|]; [|done].
  destruct (busy e); [done|]. revert Hok1. by apply timers_ok_ext.
Qed.

Lemma timers_ok_exec o w : timers_ok w -> timers_ok (exec o w).
Proof.
  intros Hok. destruct o; simpl.
  - by apply timers_ok_lookup.
  - by apply timers_ok_connected.
  - by apply timers_ok_release.
  - by apply timers_ok_fire.
  - revert Hok. by apply timers_ok_ext.
Qed.

Lemma timers_ok_exec_all ops w : timers_ok w -> timers_ok (exec_all ops w).
Proof.
  revert w. induction ops as [|o ops IH]; intros w Hok; [done|].
  simpl. apply IH. by apply timers_ok_exec.
Qed.

(** Whatever is acquired, connected, released, in whatever order and however
    often, and whichever timers fire: starting without entries and timers,
    every pending timer belongs to an idle entry that stores its handle, so
    an entry that is checked out never has an expiry pending; and every
    handle in use is older than the next one [setTimeout] returns. *)
Theorem busy_entries_have_no_timer ops w0 :
  timers w0 = ∅ -> entries w0 = [] ->
  (forall t cb, timers (exec_all ops w0) !! t = Some cb ->
     exists e, entries (exec_all ops w0) !! t_entry cb = Some e /\
               idleTimer e = Some t /\ busy e = false) /\
  (forall l e, entries (exec_all ops w0) !! l = Some e -> busy e = true ->
     forall t cb, timers (exec_all ops w0) !! t = Some cb -> t_entry cb <> l) /\
  (forall t cb, timers (exec_all ops w0) !! t = Some cb ->
     (t < next_timer (exec_all ops w0))%positive) /\
  (forall l e t, entries (exec_all ops w0) !! l = Some e -> idleTimer e = Some t ->
     (t < next_timer (exec_all ops w0))%positive).
Proof.
  intros Ht He.
  assert (Hok0 : timers_ok w0).
  { split; rewrite ?Ht, ?He; intros *; by rewrite ?lookup_empty, ?lookup_nil. }
  destruct (timers_ok_exec_all ops w0 Hok0) as [H1 H2 H3].
  split_and!; [exact H1 | | exact H2 | exact H3].
  intros l e Hl Hb t cb Hp Heq.
  destruct (H1 t cb Hp) as (e' & He' & _ & Hb'). rewrite Heq, Hl in He'. congruence.
Qed.

End PoolRunFacts.

(** ** Session cache: how acquire and release compose *)

Section PoolComposition.
Import Pool PoolRuns.

Lemma reusable_ext s w w' :
  readyStates w' = readyStates w -> isWebSocketReusable s w' = isWebSocketReusable s w.
Proof. intros H. unfold isWebSocketReusable, getWebSocketReadyState. by rewrite H. Qed.



(** Released without [keep: true], or when the transport is no longer
    reusable, a pooled connection that is still the cached one is closed
    once and forgotten: the next acquisition for the session finds nothing
    and has to connect. *)
Theorem close_then_acquire_connects r sid l e keep w :
  pooled_release r sid l ->
  nonempty sid = true ->
  websocketSessionCache w !! sid = Some l ->
  entries w !! l = Some e ->
  not_keep keep || negb (isWebSocketReusable (socket e) w) = true ->
  close_log (release r keep w) = close_log w ++ [(socket e, 1000, "done"%string)] /\
  acquire_lookup (Some sid) (release r keep w)
    = (Connecting (ConnPooled sid), release r keep w).
Proof.
  intros Hr Hsid Hc He Hk.
  assert (Hnone : websocketSessionCache (release r keep w) !! sid = None /\
                  close_log (release r keep w) = close_log w ++ [(socket e, 1000, "done"%string)]).
  { destruct Hr as [-> | ->]; simpl; rewrite He, Hk; simpl.
    - split; [apply lookup_delete_eq | done].
    - destruct (idleTimer e); simpl; rewrite bool_decide_eq_true_2 by done; simpl;
        (split; [apply lookup_delete_eq | done]). }
  destruct Hnone as [Hnone Hlog]. split; [done|].
  unfold acquire_lookup, no_session. by rewrite Hsid, Hnone.
Qed.

(** An idle cached entry whose transport is no longer reusable is not
    handed out: the lookup closes it, removes it from the cache and goes on
    to connect; the new connection then takes its place, busy. *)
Theorem stale_entry_replaced sid l e s w :
  nonempty sid = true ->
  websocketSessionCache w !! sid = Some l ->
  entries w !! l = Some e ->
  busy e = false ->
  isWebSocketReusable (socket e) w = false ->
  exists w1,
    acquire_lookup (Some sid) w = (Connecting (ConnPooled sid), w1) /\
    close_log w1 = close_log w ++ [(socket e, 1000, "done"%string)] /\
    websocketSessionCache w1 !! sid = None /\
    (forall t, idleTimer e = Some t -> timers w1 !! t = None) /\
    exists l',
      fst (acquire_connected (ConnPooled sid) s w1) = mkHandle s (RelFresh sid l') /\
      l' <> l /\
      websocketSessionCache (snd (acquire_connected (ConnPooled sid) s w1)) !! sid = Some l' /\
      entries (snd (acquire_connected (ConnPooled sid) s w1)) !! l' = Some (mkEntry s true None) /\
      close_log (snd (acquire_connected (ConnPooled sid) s w1)) = close_log w1.
Proof.
  intros Hsid Hc He Hb Hr.
  assert (Hlt : (l < length (entries w))%nat) by (by eapply lookup_lt_Some).
  unfold acquire_lookup, no_session. rewrite Hsid, Hc, He. simpl.
  destruct (idleTimer e) as [t|] eqn:Ei.
  - rewrite (reusable_ext (socket e) w) by done. rewrite Hb, Hr. simpl.
    eexists. split; [reflexivity|]. simpl. split_and!; try done.
    + apply lookup_delete_eq.
    + intros t' [= <-]. apply lookup_delete_eq.
    + exists (length (<[l:=mkEntry (socket e) false None]> (entries w))).
      rewrite length_insert. split_and!; try done.
      * lia.
      * apply lookup_insert_eq.
      * rewrite lookup_app_r by (by rewrite length_insert).
        by rewrite length_insert, Nat.sub_diag.
  - rewrite Hb, Hr. simpl. eexists. split; [reflexivity|]. simpl. split_and!; try done.
    + apply lookup_delete_eq.
    + exists (length (entries w)). split_and!; try done.
      * lia.
      * apply lookup_insert_eq.
      * rewrite lookup_app_r by done. by rewrite Nat.sub_diag.
Qed.

(** Without a session id, and the empty string counts as none, nothing
    is looked up or stored: the connection is handed out as it is and its
    release closes it whatever the hint, leaving cache, entries and timers
    alone. *)
Theorem sessionless_is_never_pooled sessionId s keep w w' :
  no_session sessionId = true ->
  acquire_lookup sessionId w = (Connecting ConnSessionless, w) /\
  acquire_connected ConnSessionless s w' = (mkHandle s (RelSessionless s), w') /\
  release (RelSessionless s) keep w' = closeWebSocketSilently s 1000 "done" w' /\
  websocketSessionCache (release (RelSessionless s) keep w') = websocketSessionCache w' /\
  entries (release (RelSessionless s) keep w') = entries w' /\
  timers (release (RelSessionless s) keep w') = timers w'.
Proof.
  intros Hn. split_and!; try done.
  - unfold acquire_lookup. destruct sessionId; [by rewrite Hn|done].
  - simpl. by case_bool_decide.
  - simpl. by case_bool_decide.
  - simpl. by case_bool_decide.
  - simpl. by case_bool_decide.
Qed.


(** Acquiring, connecting and releasing for one session never change what
    the cache holds for another session. *)
Theorem other_sessions_untouched sid' :
  (forall sessionId w, sessionId <> Some sid' ->
     websocketSessionCache (snd (acquire_lookup sessionId w)) !! sid'
       = websocketSessionCache w !! sid') /\
  (forall k s w, k <> ConnPooled sid' ->
     websocketSessionCache (snd (acquire_connected k s w)) !! sid'
       = websocketSessionCache w !! sid') /\
  (forall r keep w, release_session r <> Some sid' ->
     websocketSessionCache (release r keep w) !! sid' = websocketSessionCache w !! sid').
Proof.
  split_and!.
  - intros sessionId w Hne. unfold acquire_lookup. destruct sessionId as [sid|]; [|done].
    assert (Hs : sid <> sid') by congruence.
    destruct (no_session (Some sid)); [done|].
    destruct (websocketSessionCache w !! sid) as [l|]; [|done].
    destruct (entries w !! l) as [e|]; [|done].
    destruct (idleTimer e); simpl;
      repeat match goal with |- context [if ?b then _ else _] => destruct b end; simpl;
      by rewrite ?lookup_delete_ne.
  - intros k s w Hne. destruct k as [| |sid]; try done. simpl.
    apply lookup_insert_ne. congruence.
  - intros r keep w Hne. destruct r as [s|sid l|s|sid l]; simpl in *.
    + by case_bool_decide.
    + assert (Hs : sid <> sid') by congruence.
      destruct (entries w !! l) as [e|] eqn:He; [|done].
      destruct (not_keep keep || negb (isWebSocketReusable (socket e) w)); simpl.
      * by rewrite lookup_delete_ne.
      * unfold scheduleSessionWebSocketExpiry. simpl.
        rewrite list_lookup_insert_eq by (by eapply lookup_lt_Some). simpl.
        by destruct (idleTimer e).
    + done.
    + assert (Hs : sid <> sid') by congruence.
      destruct (entries w !! l) as [e|] eqn:He; [|done].
      destruct (not_keep keep || negb (isWebSocketReusable (socket e) w)); simpl.
      * destruct (idleTimer e); simpl; case_bool_decide; simpl; by rewrite ?lookup_delete_ne.
      * unfold scheduleSessionWebSocketExpiry. simpl.
        rewrite list_lookup_insert_eq by (by eapply lookup_lt_Some). simpl.
        by destruct (idleTimer e).
Qed.

End PoolComposition.

(** ** Decoder: the life of the generator *)

Section DecoderRunFacts.
Import Decoder DecoderRuns.

Variable dec : list byte -> string.
Variable parse : string -> option json.

Ltac case_tests :=
  repeat match goal with
         | |- context [if ?b then _ else _] => destruct b eqn:?
         | |- context [match ?x with _ => _ end] => destruct x eqn:?
         end.

Ltac unfold_handlers :=
  unfold onMessage, onError, onClose, onAbort, onMessage_decoded, drain, wake, finish; simpl.

(** *** Before the first next() *)

Lemma deaf_step a st :
  transport_only a = true ->
  listening st = false -> microtasks st = [] -> blobs st = [] ->
  step dec parse a st = (st, []).
Proof.
  intros Ha Hl Hm Hb. destruct a; try done; simpl; rewrite ?Hl, ?Hm, ?Hb; done.
Qed.

(** Until the consumer asks for the first message the generator body has
    not run and no listener is registered: whatever the transport
    dispatches before that is lost, frames and close or error events
    alike. *)
Theorem events_before_start_are_lost pre tr :
  Forall (fun a => transport_only a = true) pre ->
  run dec parse pre init = (init, []) /\
  outputs dec parse (pre ++ tr) init = outputs dec parse tr init /\
  final dec parse (pre ++ tr) init = final dec parse tr init.
Proof.
  intros Hpre.
  assert (Hrun : run dec parse pre init = (init, [])).
  { induction Hpre as [|a pre Ha Hpre IH]; [done|].
    rewrite run_cons, deaf_step by done. simpl. by rewrite IH. }
  split; [done|]. rewrite outputs_app, final_app. unfold outputs, final. by rewrite Hrun.
Qed.

(** *** The end comes once *)

Lemma final_after_end tr r st :
  wf st -> status st = GDone r -> status (final dec parse tr st) = GDone r.
Proof.
  revert st. induction tr as [|a tr IH]; intros st Hwf Hs; [done|].
  rewrite final_cons. destruct (step_after_end dec parse a r st Hwf Hs) as [_ Hs'].
  apply IH; [by apply wf_step | done].
Qed.

Lemma step_shape a st :
  (forall r, status st <> GDone r) ->
  (((step dec parse a st).2 = [] \/ exists m, (step dec parse a st).2 = [Yielded m]) /\
   forall r, status (step dec parse a st).1 <> GDone r) \/
  exists r, (step dec parse a st).2 = [Ended r] /\ status (step dec parse a st).1 = GDone r.
Proof.
  destruct st as [q p d f sc li s ab mt bl]. simpl. intros Hs.
  destruct a; simpl; unfold_handlers; case_tests; simpl in *; subst;
    first [ by (left; split; [eauto | done])
          | by (right; eauto)
          | by (exfalso; eapply Hs) ].
Qed.

(** What a consumer sees is a sequence of messages followed by at most one
    end, normal or not; when the end has come the generator is finished for
    good and none of its listeners is registered any more. *)
Theorem ends_once tr :
  (exists ms, outputs dec parse tr init = map Yielded ms /\
              forall r, status (final dec parse tr init) <> GDone r) \/
  (exists ms r, outputs dec parse tr init = map Yielded ms ++ [Ended r] /\
                status (final dec parse tr init) = GDone r /\
                listening (final dec parse tr init) = false).
Proof.
  assert (Hgen : forall st, wf st -> (forall r, status st <> GDone r) ->
    (exists ms, outputs dec parse tr st = map Yielded ms /\
                forall r, status (final dec parse tr st) <> GDone r) \/
    (exists ms r, outputs dec parse tr st = map Yielded ms ++ [Ended r] /\
                  status (final dec parse tr st) = GDone r)).
  { induction tr as [|a tr IH]; intros st Hwf Hs.
    - left. exists []. done.
    - rewrite outputs_cons, final_cons.
      pose proof (wf_step dec parse a st Hwf) as Hwf'.
      destruct (step_shape a st Hs) as [[Ho Hs'] | (r & Ho & Hs')].
      + destruct (IH _ Hwf' Hs') as [(ms & Hout & Hfin) | (ms & r & Hout & Hfin)];
          destruct Ho as [-> | [m ->]]; rewrite Hout; simpl.
        * left. by exists ms.
        * left. by exists (m :: ms).
        * right. by exists ms, r.
        * right. by exists (m :: ms), r.
      + right. exists [], r. rewrite Ho, (outputs_after_end dec parse tr r) by done.
        split; [done|]. by apply final_after_end. }
  destruct (Hgen init wf_init) as [H | (ms & r & Hout & Hfin)]; [done | by left |].
  right. exists ms, r. split_and!; [done | done |].
  pose proof (wf_final dec parse tr init wf_init) as [_ _ _ H4].
  destruct (listening (final dec parse tr init)); [|done].
  destruct H4 as [H4 _]. destruct H4 as [?|[?|?]]; congruence.
Qed.

(** *** Cancellation *)

Lemma abort_wakes_step a st :
  wf st -> abort_wakes st -> abort_wakes (step dec parse a st).1.
Proof.
  unfold abort_wakes. intros [H1 H2 H3 H4].
  destruct st as [q p d f sc li s ab mt bl]. simpl in *. intros H.
  destruct a; simpl; unfold_handlers; case_tests; simpl in *; subst; try done; auto;
    try (intros _ Hs; subst; intuition congruence).
Qed.

Lemma abort_wakes_reachable tr : abort_wakes (final dec parse tr init).
Proof.
  assert (H : forall st, wf st -> abort_wakes st -> abort_wakes (final dec parse tr st)).
  { induction tr as [|a tr IH]; intros st Hwf Hst; [done|].
    rewrite final_cons. apply IH; [by apply wf_step | by apply abort_wakes_step]. }
  apply H; [apply wf_init | by intros ?].
Qed.

(** However much is buffered, whatever was captured before and whether or
    not a completion marker was seen: once the signal aborts, the next time
    the generator runs it throws "Request was aborted" and removes its
    listeners, yielding nothing more. *)
Theorem cancel_ends_promptly tr :
  listening (final dec parse tr init) = true ->
  outputs dec parse [AAbort; ARun] (final dec parse tr init)
    = [Ended (Threw (mkError "Request was aborted"))] /\
  status (final dec parse [AAbort; ARun] (final dec parse tr init))
    = GDone (Threw (mkError "Request was aborted")) /\
  listening (final dec parse [AAbort; ARun] (final dec parse tr init)) = false.
Proof.
  intros Hl.
  pose proof (wf_final dec parse tr init wf_init) as Hwf.
  pose proof (abort_wakes_reachable tr) as Haw. unfold abort_wakes in Haw.
  destruct Hwf as [H1 H2 H3 H4].
  destruct (final dec parse tr init) as [q p d f sc li s ab mt bl]. simpl in *. subst li.
  unfold outputs, final. simpl.
  destruct ab; simpl; unfold_handlers.
  - destruct s; simpl; try done; intuition congruence.
  - destruct p; simpl; destruct s; simpl; try done; intuition congruence.
Qed.

(** *** Nothing ends the sequence without a cause *)

Lemma streaming_step a st :
  ends_stream a = false -> completes dec parse a = false ->
  streaming dec parse st ->
  streaming dec parse (step dec parse a st).1 /\
  forall r, Ended r ∉ (step dec parse a st).2.
Proof.
  intros He Hc Hst. pose proof Hst as [Hd Ha Hq Hb]. destruct a; try done.
  - (* message *)
    simpl. split; [|intros r; apply not_elem_of_nil].
    destruct (listening st); [|exact Hst].
    unfold completes, message_of in Hc. unfold onMessage.
    destruct ev as [|o]; [exact Hst|]. destruct (ev_data o) as [data|]; [|exact Hst].
    destruct (decodeWebSocketData dec data) as [text|content]; split; simpl; try done.
    + apply Forall_app. split; [done|]. constructor; [|done]. cbn [task_message].
      unfold no_completion. by destruct (accept parse text).
    + apply Forall_app. split; [done|]. constructor; [|done].
      change (no_completion (accept parse (Some (dec content)))).
      unfold no_completion. by destruct (accept parse (Some (dec content))).
  - (* blob *)
    simpl. destruct (blobs st !! k) as [content|] eqn:Hk;
      (split; [|intros r; apply not_elem_of_nil]); [|exact Hst].
    split; simpl; try done.
    + apply Forall_app. split; [done|]. constructor; [|done].
      by eapply (Forall_lookup_1 _ _ _ _ Hb).
    + by apply Forall_delete.
  - (* tick *)
    simpl. destruct (microtasks st) as [|[text|bytes] rest] eqn:Em;
      (split; [|intros r; apply not_elem_of_nil]); [exact Hst| |].
    + apply Forall_cons in Hq as [Hm Hq]. cbn [task_message] in Hm.
      unfold onMessage_decoded. destruct (accept parse text) as [m|]; [|by split].
      simpl in Hm. rewrite Hm. unfold wake. simpl. destruct (pending st); by split.
    + apply Forall_cons in Hq as [Hm Hq]. split; simpl; try done.
      apply Forall_app. split; [done|]. by constructor.
  - (* run *)
    destruct (consumer_step_keeps dec parse ARun st) as (Hd' & _ & _ & Ha' & Hm' & Hb'); [auto|].
    split; [split; congruence|].
    intros r. simpl. unfold drain. rewrite Ha, Hd.
    destruct (status st); simpl; try apply not_elem_of_nil;
      destruct (queue st); simpl; rewrite ?Ha, ?Hd; simpl;
      try apply not_elem_of_nil; by intros ?%list_elem_of_singleton.
Qed.

(** Without a completion marker, an error or close event, a cancellation
    or the consumer leaving, the sequence never ends by itself: frames that
    are empty, malformed or of some other type are dropped or passed on, and
    [done] stays unset. *)
Theorem no_end_without_cause tr :
  Forall (fun a => ends_stream a = false /\ completes dec parse a = false) tr ->
  done (final dec parse tr init) = false /\
  failed (final dec parse tr init) = None /\
  forall r, Ended r ∉ outputs dec parse tr init.
Proof.
  intros Htr.
  assert (Hgen : forall st, streaming dec parse st ->
            streaming dec parse (final dec parse tr st) /\
            forall r, Ended r ∉ outputs dec parse tr st).
  { induction Htr as [|a tr [He Hc] Htr IH]; intros st Hst.
    - split; [done|]. intros r. apply not_elem_of_nil.
    - rewrite final_cons, outputs_cons.
      destruct (streaming_step a st He Hc Hst) as [Hst' Hno].
      destruct (IH _ Hst') as [Hfin Hno']. split; [done|].
      intros r [?|?]%elem_of_app; [by eapply Hno | by eapply Hno']. }
  destruct (Hgen init) as [[Hd _ _ _] Hno]; [by split|].
  split_and!; [done | | done].
  destruct (failed (final dec parse tr init)) as [e|] eqn:Ef; [|done].
  exfalso. clear Hgen Hno Hd.
  assert (Hf : forall st, failed st = None -> failed (final dec parse tr st) = None).
  { clear Ef. induction Htr as [|a tr [He Hc] Htr IH]; intros st Hst; [done|].
    rewrite final_cons. apply IH.
    destruct st as [q p d f sc li s ab mt bl]. simpl in *. subst f.
    destruct a; try done; simpl; unfold_handlers; case_tests; simpl; done. }
  by rewrite Hf in Ef.
Qed.

(** *** Once [done] is set *)

(** When a handler has set [done], a consumer that keeps asking reaches the
    end after at most one call per buffered message plus one: it gets the
    buffer and then the outcome, or, after a cancellation, the abort error
    at once. *)
Theorem done_ends_within_buffer tr :
  listening (final dec parse tr init) = true ->
  done (final dec parse tr init) = true ->
  let st := final dec parse tr init in
  outputs dec parse (pulls (S (length (queue st)))) st
    = (if aborted st then [Ended (Threw (mkError "Request was aborted"))]
       else map Yielded (queue st) ++ [Ended (after_loop st)]) /\
  listening (final dec parse (pulls (S (length (queue st)))) st) = false.
Proof.
  intros Hl Hd. cbv zeta.
  set (st := final dec parse tr init) in *.
  assert (Hwf : wf st) by apply wf_final, wf_init.
  pose proof (ready_after_done st Hwf Hl Hd) as Hready.
  assert (Hend : forall st', wf st' -> forall r, status st' = GDone r -> listening st' = false).
  { intros st' [_ _ _ H4] r Hs. destruct (listening st'); [|done].
    destruct H4 as [H4 _]. destruct H4 as [?|[?|?]]; congruence. }
  destruct (aborted st) eqn:Ea.
  - change (pulls (S (length (queue st)))) with (ARun :: pulls (length (queue st))).
    rewrite outputs_cons, final_cons.
    assert (Hstep : step dec parse ARun st
                    = (finish (Threw (mkError "Request was aborted")) st,
                       [Ended (Threw (mkError "Request was aborted"))])).
    { simpl. unfold drain. rewrite Ea. by destruct Hready as [-> | ->]. }
    pose proof (wf_step dec parse ARun st Hwf) as Hwf'. rewrite Hstep in *. simpl in *.
    rewrite (outputs_after_end dec parse _ (Threw (mkError "Request was aborted"))) by done.
    split; [done|].
    eapply Hend; [by apply wf_final|]. by apply final_after_end.
  - destruct (pulls_drain dec parse (queue st) st eq_refl Ea Hd Hready) as [Ho Hs].
    split; [done|]. eapply Hend; [by apply wf_final | exact Hs].
Qed.

(** *** A captured failure is final *)

Lemma failed_stays a st :
  is_Some (failed st) -> is_Some (failed (step dec parse a st).1).
Proof.
  destruct st as [q p d f sc li s ab mt bl]. simpl. intros [e ->].
  destruct a; simpl; unfold_handlers; case_tests; simpl; eauto.
Qed.

Lemma failed_end a st r :
  is_Some (failed st) -> is_return a = false ->
  Ended r ∈ (step dec parse a st).2 -> exists e, r = Threw e.
Proof.
  destruct st as [q p d f sc li s ab mt bl]. simpl. intros [e ->] Hr.
  destruct a; try done; simpl; unfold_handlers; case_tests; simpl;
    try (by intros ?%elem_of_nil);
    intros H%list_elem_of_singleton; try done; injection H as ->; eauto.
Qed.

(** Once a failure has been captured the generator cannot end normally by
    itself any more, not even when a completion marker is decoded
    afterwards: if it ends, it throws. *)
Theorem failure_is_final tr st r :
  is_Some (failed st) ->
  Forall (fun a => is_return a = false) tr ->
  Ended r ∈ outputs dec parse tr st ->
  exists e, r = Threw e.
Proof.
  intros Hf Htr. revert st Hf. induction Htr as [|a tr Ha Htr IH]; intros st Hf.
  - by intros ?%elem_of_nil.
  - rewrite outputs_cons. intros [Hin|Hin]%elem_of_app.
    + by eapply failed_end.
    + eapply IH; [|exact Hin]. by apply failed_stays.
Qed.

End DecoderRunFacts.

(** ** Examples of the further properties *)

Section MoreExamples.
Import Headers Pool PoolRuns Decoder DecoderRuns.

Lemma ws_headers_content_witness :
  wsHeaders sample_headers !! "OpenAI-Beta"%string = Some OPENAI_BETA_RESPONSES_WEBSOCKETS /\
  (wsHeaders sample_headers !! "openai-beta"%string = Some "other"%string <->
   "openai-beta"%string <> "__proto__"%string /\
   last_entry "openai-beta" "other" sample_headers).
Proof.
  destruct (ws_headers_content sample_headers) as (Hbeta & _ & Hother).
  split; [exact Hbeta|]. apply Hother. discriminate.
Defined.

Lemma busy_entries_have_no_timer_witness :
  entries (exec_all sample_ops world0) !! 0%nat = Some (mkEntry 7%nat true None) /\
  (forall t cb, timers (exec_all sample_ops world0) !! t = Some cb -> t_entry cb <> 0%nat).
Proof.
  destruct (busy_entries_have_no_timer sample_ops world0 eq_refl eq_refl) as (_ & Hbusy & _).
  split; [reflexivity|].
  exact (Hbusy 0%nat (mkEntry 7%nat true None) eq_refl eq_refl).
Defined.


Lemma close_then_acquire_connects_witness :
  close_log (release (RelFresh "s1" 0%nat) None world_s1)
    = close_log world_s1 ++ [(socket (mkEntry 7%nat true None), 1000, "done"%string)] /\
  acquire_lookup (Some "s1"%string) (release (RelFresh "s1" 0%nat) None world_s1)
    = (Connecting (ConnPooled "s1"), release (RelFresh "s1" 0%nat) None world_s1).
Proof.
  apply (close_then_acquire_connects (RelFresh "s1" 0%nat) "s1" 0%nat (mkEntry 7%nat true None)
           None world_s1); [right | ..]; reflexivity.
Defined.

Lemma stale_entry_replaced_witness :
  exists w1,
    acquire_lookup (Some "s1"%string) world_s1_stale = (Connecting (ConnPooled "s1"), w1) /\
    close_log w1 = close_log world_s1_stale ++ [(7%nat, 1000, "done"%string)] /\
    websocketSessionCache w1 !! "s1"%string = None.
Proof.
  destruct (stale_entry_replaced "s1" 0%nat (mkEntry 7%nat false (Some 1%positive)) 8%nat
              world_s1_stale eq_refl eq_refl eq_refl eq_refl eq_refl)
    as (w1 & Hacq & Hlog & Hcache & _).
  exists w1. split_and!; [exact Hacq | exact Hlog | exact Hcache].
Defined.

Lemma sessionless_is_never_pooled_witness :
  acquire_lookup (Some ""%string) world_s1 = (Connecting ConnSessionless, world_s1) /\
  websocketSessionCache (release (RelSessionless 8%nat) (Some true) world_s1)
    = websocketSessionCache world_s1.
Proof.
  destruct (sessionless_is_never_pooled (Some ""%string) 8%nat (Some true) world_s1 world_s1
              eq_refl) as (Hacq & _ & _ & Hcache & _).
  split; [exact Hacq | exact Hcache].
Defined.


Lemma other_sessions_untouched_witness :
  websocketSessionCache (release (RelFresh "s2" 0%nat) None world_s1) !! "s1"%string
    = websocketSessionCache world_s1 !! "s1"%string.
Proof.
  destruct (other_sessions_untouched "s1") as (_ & _ & Hrel).
  apply Hrel. discriminate.
Defined.

Lemma events_before_start_are_lost_witness :
  run sample_decode sample_parse trace_too_early init = (init, []).
Proof.
  destruct (events_before_start_are_lost sample_decode sample_parse trace_too_early [])
    as (Hrun & _); [repeat constructor | exact Hrun].
Defined.

Lemma cancel_ends_promptly_witness :
  outputs sample_decode sample_parse [AAbort; ARun]
    (final sample_decode sample_parse trace_one_delta init)
    = [Ended (Threw (mkError "Request was aborted"))].
Proof.
  destruct (cancel_ends_promptly sample_decode sample_parse trace_one_delta eq_refl)
    as (Hout & _).
  exact Hout.
Defined.

Lemma no_end_without_cause_witness :
  done (final sample_decode sample_parse trace_with_garbage init) = false /\
  forall r, Ended r ∉ outputs sample_decode sample_parse trace_with_garbage init.
Proof.
  destruct (no_end_without_cause sample_decode sample_parse trace_with_garbage)
    as (Hdone & _ & Hno); [repeat constructor|].
  split; [exact Hdone | exact Hno].
Defined.

Lemma done_ends_within_buffer_witness :
  listening (final sample_decode sample_parse
               (pulls (S (length (queue (final sample_decode sample_parse
                                           trace_to_completion init)))))
               (final sample_decode sample_parse trace_to_completion init)) = false.
Proof.
  destruct (done_ends_within_buffer sample_decode sample_parse trace_to_completion
              eq_refl eq_refl) as (_ & Hl).
  exact Hl.
Defined.

Lemma failure_is_final_witness :
  exists e, Threw (mkError "boom") = Threw e.
Proof.
  apply (failure_is_final sample_decode sample_parse trace_completion_after_error
           (final sample_decode sample_parse [ARun; AError error_boom] init)).
  - by eexists.
  - repeat constructor.
  - assert (H : outputs sample_decode sample_parse trace_completion_after_error
                  (final sample_decode sample_parse [ARun; AError error_boom] init)
                = [Yielded (typed "response.completed"); Ended (Threw (mkError "boom"))])
      by reflexivity.
    rewrite H. apply list_elem_of_further, list_elem_of_here.
Defined.

End MoreExamples.
